(** * Transfer functions of topo/transferfn/misc.py

    A shallow embedding of the stateful transfer functions of
    [topo.transferfn.misc] (PatternCombine, KernelMax, HalfRectify,
    TemporalScatter, HomeostaticResponse, AttributeTrackingTF) and the
    properties the specification states about them.

    Conventions of the embedding:
    - a Python number that the code divides with [//] and [%] ([span],
      [timestep]) is a [Z]; [Z.div] and [Z.modulo] are Python's floor
      division and remainder, division by zero is written out as an
      exception;
    - an activity value (a numpy float) is an exact rational [Qc]; where
      the code multiplies an array by [0.0] to clear it (KernelMax,
      PatternCombine), an entry is a [float64]: a finite value, an
      infinity or NaN;
    - a two-dimensional numpy array is a list of rows, a three-dimensional
      one a list of rows of depth vectors; an operation that numpy refuses
      (index out of range, shapes that differ) raises; numpy's broadcasting
      of unequal shapes is not modelled, unequal shapes raise;
    - a method is a function from the state of the instance to a result
      that is either a value with the new state or a raised exception. *)

From Stdlib Require Import ZArith QArith Qcanon Qround Lia.
From stdpp Require Import base numbers option list strings gmap.

Local Open Scope Qc_scope.

(** ** Exceptions and results *)

Inductive exn : Type :=
  | Exception
  | ValueError
  | ZeroDivisionError
  | IndexError
  | TypeError
  | AttributeError
  | KeyError.

Inductive res (A : Type) : Type :=
  | Ok (a : A)
  | Raise (e : exn).
Arguments Ok {A} a.
Arguments Raise {A} e.

#[global] Instance res_ret : MRet res := λ A a, Ok a.
#[global] Instance res_bind : MBind res := λ A B f m,
  match m with
  | Ok a => f a
  | Raise e => Raise e
  end.

(** [or_raise e o] is the value of [o], or the exception [e] when the
    underlying numpy or Python operation has no result. *)
Definition or_raise {A} (e : exn) (o : option A) : res A :=
  match o with
  | Some a => Ok a
  | None => Raise e
  end.

(** ** Numbers *)

Definition Qc_of_nat (n : nat) : Qc := Qc_of_Z (Z.of_nat n).

(** ** Arrays *)

Abbreviation matrix := (list (list Qc)).
Abbreviation buffer3 := (list (list (list Qc))).

(** [x.shape] of a two-dimensional array. *)
Definition shape {A} (m : list (list A)) : nat * nat :=
  (length m, from_option length 0%nat (head m)).

(** The rows of an [r] by [c] array all have [c] entries. *)
Definition rect {A} (r c : nat) (m : list (list A)) : Prop :=
  length m = r ∧ Forall (λ row, length row = c) m.

(** [m[i, j]] for indices inside the array. *)
Definition mat_at {A} (m : list (list A)) (i j : nat) : option A :=
  row ← m !! i; row !! j.

(** [np.zeros((d1, d2, d3))]. *)
Definition zeros3 (d1 d2 d3 : nat) : buffer3 :=
  replicate d1 (replicate d2 (replicate d3 0)).

(** [np.ones(shape) * v]. *)
Definition full2 (d1 d2 : nat) (v : Qc) : matrix :=
  replicate d1 (replicate d2 (1 * v)).

(** An elementwise binary operation on two arrays of one shape. *)
Definition map2 (f : Qc → Qc → Qc) (a b : matrix) : res matrix :=
  if decide (shape a = shape b)
  then Ok (zip_with (zip_with f) a b)
  else Raise ValueError.

(** [a * v] and [a *= v] for a scalar [v]. *)
Definition scale1 (v : Qc) (a : list Qc) : list Qc := (λ e, e * v) <$> a.
Definition scale2 (v : Qc) (a : matrix) : matrix := scale1 v <$> a.
Definition scale3 (v : Qc) (a : buffer3) : buffer3 := scale2 v <$> a.

(** ** Entries that may not be finite *)

(** An entry of a float64 array: a finite value, an infinity with its
    sign, or NaN. A finite value is an exact rational, and the two zeros
    of float64, which compare equal, are the one value 0. The products
    and sums the code takes on such entries have an operand 0, where
    float64 arithmetic does not round. *)
Inductive float64 : Type :=
  | Finite (q : Qc)
  | Inf (negative : bool)
  | NaN.

#[global] Instance float64_eq_dec : EqDecision float64.
Proof. solve_decision. Defined.

Abbreviation fmatrix := (list (list float64)).

Definition is_finite (a : float64) : bool :=
  match a with Finite _ => true | _ => false end.

Definition is_nan (a : float64) : bool :=
  match a with NaN => true | _ => false end.

(** [a * b]: NaN for a NaN operand and for an infinity times zero. *)
Definition fmul (a b : float64) : float64 :=
  match a, b with
  | NaN, _ | _, NaN => NaN
  | Finite p, Finite q => Finite (p * q)
  | Inf s, Finite q | Finite q, Inf s =>
      if decide (q = 0) then NaN else Inf (xorb s (bool_decide (q < 0)))
  | Inf s, Inf s' => Inf (xorb s s')
  end.

(** [a + b]: NaN for a NaN operand and for infinities of opposite sign. *)
Definition fadd (a b : float64) : float64 :=
  match a, b with
  | NaN, _ | _, NaN => NaN
  | Finite p, Finite q => Finite (p + q)
  | Inf s, Finite _ | Finite _, Inf s => Inf s
  | Inf s, Inf s' => if decide (s = s') then Inf s else NaN
  end.

(** [a <= b] and [a < b]: false when an operand is NaN. *)
Definition fle (a b : float64) : bool :=
  match a, b with
  | Finite p, Finite q => bool_decide (p ≤ q)
  | Finite _, Inf negative => negb negative
  | Inf negative, Finite _ => negative
  | Inf negative, Inf negative' => negative || negb negative'
  | _, _ => false
  end.

Definition flt (a b : float64) : bool := fle a b && negb (fle b a).

(** An elementwise binary operation on two arrays of one shape. *)
Definition fmap2 (f : float64 → float64 → float64) (a b : fmatrix)
  : res fmatrix :=
  if decide (shape a = shape b)
  then Ok (zip_with (zip_with f) a b)
  else Raise ValueError.

(** [a *= v] for a scalar [v]. *)
Definition fscale2 (v : float64) (a : fmatrix) : fmatrix :=
  (λ row : list float64, (λ e, fmul e v) <$> row) <$> a.

(** The array that holds the finite values of [m]. *)
Definition finite (m : matrix) : fmatrix :=
  (λ row : list Qc, Finite <$> row) <$> m.

(** ** TemporalScatter *)

Module TemporalScatter.

(** Arrays live in a store: [self._buffer] and the entries of the state
    stack are references, and [_buffer *= 0.0] and [_buffer[..., 0] = x]
    update the referenced array in place. *)
Definition loc := nat.
Abbreviation heap := (gmap loc buffer3).

Section TemporalScatter.

(** The state that [TransferFnWithState] keeps and its [state_push] and
    [state_pop], which [topo.transferfn] defines outside this module: they
    act on the fields of the base class only. *)
Context {base_state : Type}.
Variable super_state_push : base_state → base_state.
Variable super_state_pop : base_state → base_state.

(** [self.distribution(xdensity=d1, ydensity=d2, bounds=...)], the array
    of latency samples the pattern generator returns. *)
Variable distribution : nat → nat → matrix.

Record state : Type := mkState {
  timestep : Z;
  span : Z;
  limits : Qc * Qc;
  _depth : option Z;
  first_call : bool;
  raw_depth_map : option matrix;
  depth_map : option (list (list nat));
  _buffer : option loc;
  current_state_stack : list (option loc * bool);
  base : base_state;
}.

Definition set_depth (d : option Z) (s : state) : state :=
  mkState (timestep s) (span s) (limits s) d (first_call s)
    (raw_depth_map s) (depth_map s) (_buffer s) (current_state_stack s) (base s).
Definition set_first_call (b : bool) (s : state) : state :=
  mkState (timestep s) (span s) (limits s) (_depth s) b
    (raw_depth_map s) (depth_map s) (_buffer s) (current_state_stack s) (base s).
Definition set_raw_depth_map (m : option matrix) (s : state) : state :=
  mkState (timestep s) (span s) (limits s) (_depth s) (first_call s)
    m (depth_map s) (_buffer s) (current_state_stack s) (base s).
Definition set_depth_map (m : option (list (list nat))) (s : state) : state :=
  mkState (timestep s) (span s) (limits s) (_depth s) (first_call s)
    (raw_depth_map s) m (_buffer s) (current_state_stack s) (base s).
Definition set_buffer (l : option loc) (s : state) : state :=
  mkState (timestep s) (span s) (limits s) (_depth s) (first_call s)
    (raw_depth_map s) (depth_map s) l (current_state_stack s) (base s).
Definition set_stack (k : list (option loc * bool)) (s : state) : state :=
  mkState (timestep s) (span s) (limits s) (_depth s) (first_call s)
    (raw_depth_map s) (depth_map s) (_buffer s) k (base s).
Definition set_base (b : base_state) (s : state) : state :=
  mkState (timestep s) (span s) (limits s) (_depth s) (first_call s)
    (raw_depth_map s) (depth_map s) (_buffer s) (current_state_stack s) b.

(** [__init__]: [span] is declared with [bounds=(0,None)], [timestep]
    without bounds. *)
Definition init (timestep span : Z) (b : base_state) : state :=
  mkState timestep span
    (- (Qc_of_Z span / Qc_of_Z 2), Qc_of_Z span / Qc_of_Z 2)
    None true None None None [] b.

(** The property [depth]. [if self._depth] is false for [None] and for 0;
    [span // timestep] raises when [timestep] is 0. *)
Definition compute_depth (s : state) : res (Z * state) :=
  if decide (timestep s = 0%Z) then Raise ZeroDivisionError
  else if decide ((span s / timestep s)%Z = 0%Z ∨ (span s mod timestep s)%Z ≠ 0%Z)
  then Raise Exception
  else Ok ((span s / timestep s)%Z, set_depth (Some (span s / timestep s)%Z) s).

Definition depth (s : state) : res (Z * state) :=
  match _depth s with
  | Some d => if decide (d ≠ 0%Z) then Ok (d, s) else compute_depth s
  | None => compute_depth s
  end.

(** [np.linspace(start, stop, num)]: [num] points from [start] to [stop],
    both included; a single point is [start]; a negative [num] raises. *)
Definition linspace (start stop : Qc) (num : Z) : res (list Qc) :=
  if decide (num < 0)%Z then Raise ValueError
  else
    let n := Z.to_nat num in
    Ok ((λ k, start + Qc_of_nat k * ((stop - start) / Qc_of_nat (n - 1)))
          <$> seq 0 n).

(** [np.digitize(v, bins)] for increasing [bins]: the index [i] with
    [bins[i-1] <= v < bins[i]], 0 below the first edge and [len(bins)]
    from the last edge on. *)
Fixpoint digitize1 (bins : list Qc) (v : Qc) : nat :=
  match bins with
  | [] => 0
  | b :: bins' => if decide (b ≤ v) then S (digitize1 bins' v) else 0
  end.

Definition digitize (vs bins : list Qc) : list nat :=
  (λ v, digitize1 bins v) <$> vs.

(** [a.reshape(d1, d2)] of a flat array. *)
Fixpoint chunks {A} (d1 d2 : nat) (l : list A) : list (list A) :=
  match d1 with
  | O => []
  | S d1' => take d2 l :: chunks d1' d2 (drop d2 l)
  end.

Definition reshape2 {A} (d1 d2 : nat) (l : list A) : res (list (list A)) :=
  if decide (length l = (d1 * d2)%nat) then Ok (chunks d1 d2 l)
  else Raise ValueError.

(** [discretized[discretized==len(bin_edges)] = len(bin_edges)-1]. *)
Definition pull_back (n : nat) (k : nat) : nat :=
  if decide (k = n) then (n - 1)%nat else k.

Definition _compute_depth_map (s : state) (shp : nat * nat)
  : res (list (list nat) * state) :=
  let '(d1, d2) := shp in
  let '(min_lim, max_lim) := limits s in
  let raw := distribution d1 d2 in
  let s := set_raw_depth_map (Some raw) s in
  '(d, s) ← depth s;
  bin_edges ← linspace min_lim max_lim d;
  let discretized := digitize (concat raw) bin_edges in
  let discretized := pull_back (length bin_edges) <$> discretized in
  m ← reshape2 d1 d2 discretized;
  Ok (m, s).

(** [np.roll(b, 1, axis=2)]: along the depth axis the last entry comes
    first and every other entry moves one slot up. *)
Definition roll1 {A} (v : list A) : list A :=
  drop (length v - 1) v ++ take (length v - 1) v.

Definition roll (b : buffer3) : buffer3 :=
  (λ row : list (list Qc), roll1 <$> row) <$> b.

(** [b[..., 0] = x]. *)
Definition assign_slot0 (x : matrix) (b : buffer3) : res buffer3 :=
  if decide (shape x = shape b)
  then Ok (zip_with (zip_with (λ e v, <[0%nat := e]> v)) x b)
  else Raise ValueError.

(** [b[np.arange(d1)[:, None], np.arange(d2), dm]]: the entry of unit
    [(i, j)] is [b[i, j, dm[i, j]]]. *)
Definition gather (b : buffer3) (dm : list (list nat)) (d1 d2 : nat)
  : res matrix :=
  if decide (shape dm = (d1, d2)) then
    or_raise IndexError
      (mapM (λ i, mapM (λ j, d ← mat_at dm i j;
                             v ← mat_at b i j;
                             v !! d) (seq 0 d2)) (seq 0 d1))
  else Raise IndexError.

(** [x.fill(0.0)]. *)
Definition fill0 (x : matrix) : matrix := (λ row : list Qc, (λ _, 0) <$> row) <$> x.

(** A new array gets a reference that is not in use. *)
Definition alloc (h : heap) (b : buffer3) : loc * heap :=
  let l := fresh (dom h) in (l, <[l := b]> h).

(** The array [self._buffer] refers to. *)
Definition buffer_of (h : heap) (s : state) : option buffer3 :=
  l ← _buffer s; h !! l.

(** The block under [if self.first_call is True]. *)
Definition first_call_init (h : heap) (s : state) (d1 d2 : nat)
  : res (heap * state) :=
  '(d, s) ← depth s;
  if decide (d < 0)%Z then Raise ValueError
  else
    let '(l, h) := alloc h (zeros3 d1 d2 (Z.to_nat d)) in
    let s := set_buffer (Some l) s in
    '(dm, s) ← _compute_depth_map s (d1, d2);
    Ok (h, set_first_call false (set_depth_map (Some dm) s)).

(** [__call__]: the result is the new store, the new state and the
    contents of [x] on return. *)
Definition __call__ (hs : heap * state) (x : matrix)
  : res (heap * state * matrix) :=
  let '(h, s) := hs in
  let '(d1, d2) := shape x in
  '(h, s) ← (if first_call s then first_call_init h s d1 d2 else Ok (h, s));
  b ← or_raise ValueError (buffer_of h s);
  let '(l, h) := alloc h (roll b) in
  let s := set_buffer (Some l) s in
  b ← assign_slot0 x (roll b);
  let h := <[l := b]> h in
  dm ← or_raise TypeError (depth_map s);
  g ← gather b dm d1 d2;
  x ← map2 Qcplus (fill0 x) g;
  Ok (h, s, x).

(** [state_push]: [copy.copy] of an array allocates a new array with the
    same contents, [copy.copy(None)] is [None]; the top of the stack is
    the head of the list. *)
Definition state_push (hs : heap * state) : res (heap * state) :=
  let '(h, s) := hs in
  '(saved, h) ← match _buffer s with
                | None => Ok (None, h)
                | Some l =>
                    b ← or_raise ValueError (h !! l);
                    let '(l', h) := alloc h b in Ok (Some l', h)
                end;
  let s := set_stack ((saved, first_call s) :: current_state_stack s) s in
  let s := set_base (super_state_push (base s)) s in
  match _buffer s with
  | None => Ok (h, s)
  | Some l =>
      b ← or_raise ValueError (h !! l);
      Ok (<[l := scale3 0 b]> h, s)
  end.

(** [state_pop]: popping an empty list raises. *)
Definition state_pop (hs : heap * state) : res (heap * state) :=
  let '(h, s) := hs in
  match current_state_stack s with
  | [] => Raise IndexError
  | (saved, fc) :: k =>
      let s := set_first_call fc (set_buffer saved (set_stack k s)) in
      Ok (h, set_base (super_state_pop (base s)) s)
  end.

(** A sequence of calls; the outputs are collected in call order. *)
Fixpoint run (hs : heap * state) (xs : list matrix)
  : res (heap * state * list matrix) :=
  match xs with
  | [] => Ok (hs, [])
  | x :: xs' =>
      '(hs, y) ← __call__ hs x;
      '(hs, ys) ← run hs xs';
      Ok (hs, y :: ys)
  end.

(** [span] is an exact positive multiple of [timestep]. *)
Definition exact_positive_multiple (span timestep : Z) : Prop :=
  ∃ k : Z, (0 < k)%Z ∧ span = (k * timestep)%Z.

(** A [d1] by [d2] by [d] buffer. *)
Definition rect3 (d1 d2 d : nat) (b : buffer3) : Prop :=
  length b = d1 ∧
  Forall (λ row, length row = d2 ∧ Forall (λ v : list Qc, length v = d) row) b.

(** A state in which [__call__] can take [d1] by [d2] matrices with a
    buffer of depth [d]: before the first call the configuration gives
    the depth [d] and the generator returns one latency per unit;
    afterwards the buffer and the depth map have their shapes and the
    depth map holds delay bins below [d]. *)
Definition ready (h : heap) (s : state) (d1 d2 d : nat) : Prop :=
  (0 < d)%nat ∧
  if first_call s then
    (∃ s', depth s = Ok (Z.of_nat d, s')) ∧
    length (concat (distribution d1 d2)) = (d1 * d2)%nat
  else
    ∃ b dm, buffer_of h s = Some b ∧ rect3 d1 d2 d b ∧
      depth_map s = Some dm ∧ rect d1 d2 dm ∧
      ∀ i j k, mat_at dm i j = Some k → (k < d)%nat.

(** The caller assigns the parameters [timestep] and [span] of an
    instance; [limits] and [_depth] stay as [__init__] and [depth] left
    them. *)
Definition set_params (timestep span : Z) (s : state) : state :=
  mkState timestep span (limits s) (_depth s) (first_call s)
    (raw_depth_map s) (depth_map s) (_buffer s) (current_state_stack s) (base s).

(** What [view_depth_map] takes from holoviews: [Image(raw_depth_map,
    ...).hist()], [Image(scaled_map, ...)], its [hist(num_bins=...,
    bin_range=(0, span))], and [+] on two views. *)
Context {view image : Type}.
Variable raw_hist : option matrix → res view.
Variable discrete_image : list (list Z) → res image.
Variable discrete_hist : image → Z → Z → res view.
Variable layout : view → view → res view.

(** [self.depth_map * self.timestep]. *)
Definition scaled_map (s : state) : res (list (list Z)) :=
  match depth_map s with
  | None => Raise TypeError
  | Some dm =>
      Ok ((λ row : list nat, (λ k, (Z.of_nat k * timestep s)%Z) <$> row) <$> dm)
  end.

(** [view_depth_map(mode)]: the views are collected in a list, and
    [views[0] if len(views)==1 else views[0]+views[1]] is returned. *)
Definition view_depth_map (s : state) (mode : string) : res (view * state) :=
  let views : list view := [] in
  views ← (if decide (mode ∈ ["raw"; "both"]%string)
           then v ← raw_hist (raw_depth_map s); Ok (views ++ [v])
           else Ok views);
  '(views, s) ← (if decide (mode ∈ ["discrete"; "both"]%string)
                 then
                   m ← scaled_map s;
                   discrete_sv ← discrete_image m;
                   '(d, s) ← depth s;
                   v ← discrete_hist discrete_sv d (span s);
                   Ok (views ++ [v], s)
                 else Ok (views, s));
  match views with
  | [v] => Ok (v, s)
  | v0 :: v1 :: _ => v ← layout v0 v1; Ok (v, s)
  | [] => Raise IndexError
  end.

End TemporalScatter.

End TemporalScatter.

(** ** KernelMax *)

Module KernelMax.

Section KernelMax.

(** [self.neighborhood_kernel_generator(bounds=bb, xdensity=1,
    ydensity=1, size=..., x=..., y=...)]: the pattern generator is
    imagen's; it gets the corner points of the bounding box, the size and
    the centre, and returns the kernel array. *)
Variable neighborhood_kernel_generator :
  (Z * Z) * (Z * Z) → Qc → Qc → Qc → fmatrix.

Record params : Type := mkParams {
  kernel_radius : Qc;
  crop_radius_multiplier : Qc;
  density : Qc;
}.

(** Python's [max(a, b)]: [b] when it is greater, else [a]. *)
Definition py_max (a b : Qc) : Qc := if decide (a < b) then b else a.

(** Python's [int(v)] of a float: the fraction is cut off, towards zero. *)
Definition py_int (v : Qc) : Z := (Qnum (this v) ÷ Zpos (Qden (this v)))%Z.

(** [radius] and [crop_radius] of [__call__]. *)
Definition radius (p : params) : Qc := density p * kernel_radius p.

Definition crop_radius (p : params) : Z :=
  py_int (py_max (Q2Qc (5 # 4)) (radius p * crop_radius_multiplier p)).

(** The index [arr.argmax()] of a flat array: the first position that
    holds the maximum, and in an array with a NaN the first position that
    holds NaN. [best] and [bv] are the position and value of the maximum
    so far, [k] the position of the head of [l]; NumPy moves on to [v]
    unless [v <= bv], and stops at a NaN. *)
Fixpoint argmax_from (best : nat) (bv : float64) (k : nat) (l : list float64)
  : nat :=
  match l with
  | [] => best
  | v :: l' =>
      if is_nan bv then best
      else if fle v bv then argmax_from best bv (S k) l'
      else argmax_from k v (S k) l'
  end.

Definition argmax_flat (l : list float64) : option nat :=
  match l with
  | [] => None
  | v :: l' => Some (argmax_from 0 v 1 l')
  end.

(** Modelled from the spec: [array_argmax] of [topo.base.arrayutil] is not
    part of the sources at hand. The spec has it return "the matrix
    coordinates of the maximum value in x (ties broken by the underlying
    arg-max search order, first occurrence)": the first maximum of the
    array read row by row, as row and column; an empty array raises. *)
Definition array_argmax (x : fmatrix) : res (nat * nat) :=
  let '(_, cols) := shape x in
  k ← or_raise ValueError (argmax_flat (concat x));
  Ok ((k / cols)%nat, (k mod cols)%nat).

(** The crop region of [__call__] around the winner [(wr, wc)] of an
    array with [rows] rows and [cols] columns: [(rmin, rmax, cmin, cmax)]. *)
Definition crop_region (p : params) (rows cols wr wc : Z) : Z * Z * Z * Z :=
  let cmin := Z.max (wc - crop_radius p) 0 in
  let cmax := Z.min (wc + crop_radius p + 1) cols in
  let rmin := Z.max (wr - crop_radius p) 0 in
  let rmax := Z.min (wr + crop_radius p + 1) rows in
  (rmin, rmax, cmin, cmax).

(** Whether [(i, j)] lies in [rmin:rmax, cmin:cmax]. *)
Definition in_region (reg : Z * Z * Z * Z) (i j : nat) : Prop :=
  let '(rmin, rmax, cmin, cmax) := reg in
  (rmin ≤ Z.of_nat i < rmax)%Z ∧ (cmin ≤ Z.of_nat j < cmax)%Z.

#[global] Instance in_region_dec reg i j : Decision (in_region reg i j).
Proof. destruct reg as [[[??]?]?]. unfold in_region. apply _. Defined.

(** [x[rmin:rmax, cmin:cmax] = kernel] for bounds inside the array: the
    kernel has the shape of the slice, or the assignment raises. *)
Definition slice_assign (x : fmatrix) (reg : Z * Z * Z * Z) (kernel : fmatrix)
  : res fmatrix :=
  let '(rmin, rmax, cmin, cmax) := reg in
  if decide (shape kernel = (Z.to_nat (rmax - rmin), Z.to_nat (cmax - cmin)))
  then
    or_raise ValueError
      (mapM (λ '(i, row),
         mapM (λ '(j, e),
           if decide (in_region reg i j)
           then mat_at kernel (i - Z.to_nat rmin) (j - Z.to_nat cmin)
           else Some e) (imap pair row)) (imap pair x))
  else Raise ValueError.

(** [__call__]: the result is the contents of [x] on return. *)
Definition __call__ (p : params) (x : fmatrix) : res fmatrix :=
  let '(rows, cols) := shape x in
  let rows := Z.of_nat rows in
  let cols := Z.of_nat cols in
  '(wr, wc) ← array_argmax x;
  let wr := Z.of_nat wr in
  let wc := Z.of_nat wc in
  let wy := (rows - wr - 1)%Z in
  let '(rmin, rmax, cmin, cmax) := crop_region p rows cols wr wc in
  let ymin := Z.max (wy - crop_radius p) 0 in
  let ymax := Z.min (wy + crop_radius p + 1) rows in
  let bb := ((cmin, ymin), (cmax, ymax)) in
  let kernel :=
    neighborhood_kernel_generator bb (Qc_of_Z 2 * radius p)
      (Qc_of_Z wc + Q2Qc (1 # 2)) (Qc_of_Z wy + Q2Qc (1 # 2)) in
  let x := fscale2 (Finite 0) x in
  slice_assign x (rmin, rmax, cmin, cmax) kernel.

(** [(wr, wc)] holds the maximum of [x], and no position before it, in
    the order the array is read (row by row), holds it too. *)
Definition first_maximum (x : fmatrix) (wr wc : nat) : Prop :=
  ∃ m, mat_at x wr wc = Some m ∧
    (∀ i j v, mat_at x i j = Some v → fle v m) ∧
    (∀ i j v, mat_at x i j = Some v →
       (i < wr)%nat ∨ (i = wr ∧ (j < wc)%nat) → flt v m).

(** No entry of [x] is NaN. *)
Definition no_nan (x : fmatrix) : Prop :=
  Forall (Forall (λ v : float64, is_nan v = false)) x.

(** A kernel generator that, at density 1, returns an array with one row
    per unit of height and one column per unit of width of the bounding
    box it is given, as imagen's pattern generators do. *)
Definition fills_bounds : Prop :=
  ∀ cmin ymin cmax ymax size x y,
    rect (Z.to_nat (ymax - ymin)) (Z.to_nat (cmax - cmin))
      (neighborhood_kernel_generator ((cmin, ymin), (cmax, ymax)) size x y).

End KernelMax.

End KernelMax.

(** ** HomeostaticResponse *)

Module HomeostaticResponse.

Section HomeostaticResponse.

(** [imagen.random.UniformRandom(random_generator=
    np.random.RandomState(seed=seed))(xdensity=d1, ydensity=d2)], the
    array of uniform samples the seeded generator returns. *)
Variable uniform_random : Z → nat → nat → matrix.

Record params : Type := mkParams {
  t_init : Qc;
  randomized_init : bool;
  seed : Z;
  target_activity : Qc;
  linear_slope : Qc;
  learning_rate : Qc;
  smoothing : Qc;
  noise_magnitude : Qc;
  period : Qc;
}.

(** What [state_push] saves: [t], [y_avg], [first_call],
    [_next_update_timestamp], [_y_avg_prev], [_x_prev]. *)
Definition snapshot : Type :=
  option matrix * option matrix * bool * Qc * option matrix * option matrix.

(** The arrays of this class are never shared: [state_push] stores
    copies, [_initialize] copies [x], and the one update in place,
    [_x_prev[:] = x[:]], writes to an array only [_x_prev] refers to. The
    state holds them by value. *)
Record state : Type := mkState {
  par : params;
  plastic : bool;
  first_call : bool;
  t : option matrix;
  y_avg : option matrix;
  _next_update_timestamp : Qc;
  _y_avg_prev : option matrix;
  _x_prev : option matrix;
  current_state_stack : list snapshot;
}.

(** [__init__] at simulation time [now]; [plastic] is the parameter of
    [TransferFnWithState]. *)
Definition init (now : Qc) (p : params) (plastic : bool) : state :=
  mkState p plastic true None None (now + period p) None None [].

(** The caller sets the parameter [plastic]. *)
Definition set_plastic (b : bool) (s : state) : state :=
  mkState (par s) b (first_call s) (t s) (y_avg s)
    (_next_update_timestamp s) (_y_avg_prev s) (_x_prev s)
    (current_state_stack s).

(** [v * a] for a scalar [v]. *)
Definition smul (v : Qc) (a : matrix) : matrix :=
  (λ row : list Qc, (λ e, v * e) <$> row) <$> a.

(** [a - v] for a scalar [v]. *)
Definition ssub (a : matrix) (v : Qc) : matrix :=
  (λ row : list Qc, (λ e, e - v) <$> row) <$> a.

(** Modelled from the spec: [clip_lower] of [topo.base.arrayutil] is not
    part of the sources at hand. The spec has the threshold "subtract t,
    clip at zero" and "clips negative values to zero": every entry below
    the bound becomes the bound. *)
Definition clip_lower (a : matrix) (lower_bound : Qc) : matrix :=
  (λ row : list Qc,
     (λ e, if decide (e < lower_bound) then lower_bound else e) <$> row) <$> a.

Definition _initialize (s : state) (x : matrix) : res state :=
  let p := par s in
  let '(d1, d2) := shape x in
  let x_prev := x in
  let y_avg_prev := full2 d1 d2 (target_activity p) in
  t ← (if randomized_init p
       then map2 Qcplus (full2 d1 d2 (t_init p))
              (scale2 (Qc_of_Z 2)
                 (scale2 (noise_magnitude p)
                    (ssub (uniform_random (seed p) d1 d2) (Q2Qc (1 # 2)))))
       else Ok (full2 d1 d2 (t_init p)));
  let y_avg := full2 d1 d2 (target_activity p) in
  Ok (mkState p (plastic s) (first_call s) (Some t) (Some y_avg)
        (_next_update_timestamp s) (Some y_avg_prev) (Some x_prev)
        (current_state_stack s)).

Definition _apply_threshold (s : state) (x : matrix) : res matrix :=
  t ← or_raise TypeError (t s);
  x ← map2 Qcminus x t;
  let x := clip_lower x 0 in
  Ok (if decide (linear_slope (par s) ≠ 1) then scale2 (linear_slope (par s)) x
      else x).

Definition _update_threshold (s : state) (prev_t x prev_avg : matrix)
    (smoothing learning_rate target_activity : Qc) : res (matrix * matrix) :=
  y_avg ← map2 Qcplus (smul (1 - smoothing) x) (smul smoothing prev_avg);
  t ← map2 Qcplus prev_t (smul learning_rate (ssub y_avg target_activity));
  Ok (if plastic s then (y_avg, t) else (prev_avg, prev_t)).

(** The block under [if (topo.sim.time() > self._next_update_timestamp)]. *)
Definition scheduled_update (s : state) : res state :=
  let p := par s in
  let stamp := _next_update_timestamp s + period p in
  prev_t ← or_raise TypeError (t s);
  x_prev ← or_raise TypeError (_x_prev s);
  prev_avg ← or_raise TypeError (_y_avg_prev s);
  '(y_avg, t) ← _update_threshold s prev_t x_prev prev_avg
                  (smoothing p) (learning_rate p) (target_activity p);
  Ok (mkState p (plastic s) (first_call s) (Some t) (Some y_avg) stamp
        (Some y_avg) (_x_prev s) (current_state_stack s)).

(** [__call__] at simulation time [now]: the result is the new state and
    the contents of [x] on return. *)
Definition __call__ (now : Qc) (s : state) (x : matrix) : res (state * matrix) :=
  s ← (if first_call s then
         s ← _initialize s x;
         Ok (mkState (par s) (plastic s) false (t s) (y_avg s)
               (_next_update_timestamp s) (_y_avg_prev s) (_x_prev s)
               (current_state_stack s))
       else Ok s);
  s ← (if decide (_next_update_timestamp s < now) then scheduled_update s
       else Ok s);
  x ← _apply_threshold s x;
  x_prev ← or_raise TypeError (_x_prev s);
  if decide (shape x_prev = shape x) then
    Ok (mkState (par s) (plastic s) (first_call s) (t s) (y_avg s)
          (_next_update_timestamp s) (_y_avg_prev s) (Some x)
          (current_state_stack s), x)
  else Raise ValueError.

Definition state_push (s : state) : state :=
  mkState (par s) (plastic s) (first_call s) (t s) (y_avg s)
    (_next_update_timestamp s) (_y_avg_prev s) (_x_prev s)
    ((t s, y_avg s, first_call s, _next_update_timestamp s,
      _y_avg_prev s, _x_prev s) :: current_state_stack s).

Definition state_pop (s : state) : res state :=
  match current_state_stack s with
  | [] => Raise IndexError
  | (t, y_avg, first_call, stamp, y_avg_prev, x_prev) :: k =>
      Ok (mkState (par s) (plastic s) first_call t y_avg stamp y_avg_prev
            x_prev k)
  end.

(** A sequence of calls, each at its simulation time; the states after
    each call and the outputs are collected in call order. *)
Fixpoint run (s : state) (calls : list (Qc * matrix))
  : res (list (state * matrix)) :=
  match calls with
  | [] => Ok []
  | (now, x) :: calls' =>
      '(s, y) ← __call__ now s x;
      rest ← run s calls';
      Ok ((s, y) :: rest)
  end.

(** The states an instance can be in: built by [__init__], then called,
    pushed, popped, or its [plastic] parameter set. *)
Inductive reachable : state → Prop :=
  | reachable_init now p b : reachable (init now p b)
  | reachable_call now s x s' y :
      reachable s → __call__ now s x = Ok (s', y) → reachable s'
  | reachable_push s : reachable s → reachable (state_push s)
  | reachable_pop s s' : reachable s → state_pop s = Ok s' → reachable s'
  | reachable_plastic b s : reachable s → reachable (set_plastic b s).

(** [y_avg] and [_y_avg_prev] hold the same values, in the state and in
    every saved state. *)
Definition averages_agree (s : state) : Prop :=
  y_avg s = _y_avg_prev s ∧
  Forall (λ k : snapshot, k.1.1.1.1.2 = k.1.2) (current_state_stack s).




End HomeostaticResponse.

End HomeostaticResponse.

(** ** HalfRectify *)

Module HalfRectify.

Section HalfRectify.

(** [imagen.random.UniformRandom()(xdensity=d1, ydensity=d2)], the array
    of uniform samples a new generator returns. *)
Variable uniform_random : nat → nat → matrix.

Record state : Type := mkState {
  t_init : Qc;
  gain : Qc;
  randomized_init : bool;
  noise_magnitude : Qc;
  first_call : bool;
  t : option matrix;
}.

(** [__init__]: the attribute [t] does not exist before the first call. *)
Definition init (t_init gain : Qc) (randomized_init : bool)
    (noise_magnitude : Qc) : state :=
  mkState t_init gain randomized_init noise_magnitude true None.

(** [__call__]: the result is the new state and the contents of [x] on
    return. [clip_lower] is the one of [topo.base.arrayutil]. *)
Definition __call__ (s : state) (x : matrix) : res (state * matrix) :=
  s ← (if first_call s then
         let '(d1, d2) := shape x in
         t ← (if randomized_init s
              then map2 Qcplus (full2 d1 d2 (t_init s))
                     (scale2 (Qc_of_Z 2)
                        (scale2 (noise_magnitude s)
                           (HomeostaticResponse.ssub (uniform_random d1 d2)
                              (Q2Qc (1 # 2)))))
              else Ok (full2 d1 d2 (t_init s)));
         Ok (mkState (t_init s) (gain s) (randomized_init s)
               (noise_magnitude s) false (Some t))
       else Ok s);
  t ← or_raise AttributeError (t s);
  x ← map2 Qcminus x t;
  let x := HomeostaticResponse.clip_lower x 0 in
  Ok (s, scale2 (gain s) x).

(** A sequence of calls; the states after each call and the outputs are
    collected in call order. *)
Fixpoint run (s : state) (xs : list matrix) : res (list (state * matrix)) :=
  match xs with
  | [] => Ok []
  | x :: xs' =>
      '(s, y) ← __call__ s x;
      rest ← run s xs';
      Ok ((s, y) :: rest)
  end.

End HalfRectify.

End HalfRectify.

(** ** PatternCombine *)

Module PatternCombine.

Section PatternCombine.

(** [self.generator(bounds=bb, xdensity=1, ydensity=1)] for the corner
    points of the bounding box, and [self.operator], a binary ufunc that
    works entry by entry. *)
Variable generator : (Z * Z) * (Z * Z) → fmatrix.
Variable operator : float64 → float64 → float64.

(** [m.transpose()] of a two-dimensional array: row [i] of the result
    holds the entries at position [i] of the rows of [m]. *)
Definition transpose {A} (m : list (list A)) : list (list A) :=
  (λ i, omap (λ row : list A, row !! i) m) <$> seq 0 (shape m).2.

(** [__call__]: the result is the contents of [x] on return. *)
Definition __call__ (x : fmatrix) : res fmatrix :=
  let '(rows, cols) := shape x in
  let bb := ((0%Z, 0%Z), (Z.of_nat rows, Z.of_nat cols)) in
  let generated_pattern := transpose (generator bb) in
  new_pattern ← fmap2 operator x generated_pattern;
  let x := fscale2 (Finite 0) x in
  fmap2 fadd x new_pattern.

End PatternCombine.

End PatternCombine.

(** ** AttributeTrackingTF *)

Module AttributeTrackingTF.

Section AttributeTrackingTF.

(** A live object of the simulator: whether it is a
    [SheetCoordinateSystem], its [sheet2matrixidx], and its attributes
    that hold a matrix. *)
Record pyobject : Type := mkObject {
  is_SheetCoordinateSystem : bool;
  sheet2matrixidx : Qc → Qc → Z * Z;
  getattr : string → option matrix;
}.

(** The values of the parameters [object] and [coordframe]. *)
Inductive value : Type :=
  | VNone
  | VStr (e : string)
  | VObj (o : pyobject).

(** Python's [eval] of a textual reference, in the environment of the
    simulator. *)
Variable eval : string → res value.

Record state : Type := mkState {
  object : value;
  attrib_names : list string;
  units : list (Qc * Qc);
  step : Z;
  coordframe : value;
  plastic : bool;
  values : gmap string (gmap (Qc * Qc) (list (Qc * Qc)));
  n_step : Z;
  _object : value;
  _coordframe : value;
}.

Definition init (object : value) (attrib_names : list string)
    (units : list (Qc * Qc)) (step : Z) (coordframe : value)
    (plastic : bool) : state :=
  mkState object attrib_names units step coordframe plastic
    (foldl (λ vals p, <[p := foldl (λ m u, <[u := []]> m) ∅ units]> vals)
       ∅ attrib_names)
    0 VNone VNone.

Definition is_None (v : value) : bool :=
  match v with VNone => true | _ => false end.
Definition is_str (v : value) : bool :=
  match v with VStr _ => true | _ => false end.
Definition is_scs (v : value) : bool :=
  match v with VObj o => is_SheetCoordinateSystem o | _ => false end.

(** [a[i]] along an axis of length [n]: a negative index counts from the
    end. *)
Definition np_index (n : nat) (i : Z) : option nat :=
  if decide (0 ≤ i < Z.of_nat n)%Z then Some (Z.to_nat i)
  else if decide (- Z.of_nat n ≤ i < 0)%Z then Some (Z.to_nat (i + Z.of_nat n))
  else None.

(** [value_matrix[mat_u]] for a pair of indices. *)
Definition getitem (m : matrix) (idx : Z * Z) : res Qc :=
  or_raise IndexError
    (r ← np_index (length m) idx.1;
     row ← m !! r;
     c ← np_index (length row) idx.2;
     row !! c).

(** [self.values[p][u].append(e)]. *)
Definition append_value (vals : gmap string (gmap (Qc * Qc) (list (Qc * Qc))))
    (p : string) (u : Qc * Qc) (e : Qc * Qc)
  : res (gmap string (gmap (Qc * Qc) (list (Qc * Qc)))) :=
  m ← or_raise KeyError (vals !! p);
  l ← or_raise KeyError (m !! u);
  Ok (<[p := <[u := l ++ [e]]> m]> vals).

(** The body of [for u in self.units], for the attribute [p]. *)
Definition track_unit (now : Qc) (cf : value) (value_matrix : matrix)
    (p : string) (vals : gmap string (gmap (Qc * Qc) (list (Qc * Qc))))
    (u : Qc * Qc)
  : res (gmap string (gmap (Qc * Qc) (list (Qc * Qc)))) :=
  mat_u ← match cf with
          | VObj o => Ok (sheet2matrixidx o u.1 u.2)
          | _ => Raise AttributeError
          end;
  v ← getitem value_matrix mat_u;
  append_value vals p u (now, v).

(** A [for] loop whose body can raise. *)
Fixpoint for_each {A S} (body : S → A → res S) (s : S) (l : list A) : res S :=
  match l with
  | [] => Ok s
  | a :: l' => s ← body s a; for_each body s l'
  end.

(** The body of [for p in self.attrib_names]. *)
Definition track_attrib (now : Qc) (s : state) (x : matrix)
    (vals : gmap string (gmap (Qc * Qc) (list (Qc * Qc)))) (p : string)
  : res (gmap string (gmap (Qc * Qc) (list (Qc * Qc)))) :=
  value_matrix ← (if decide (p = "x"%string) then Ok x
                  else match _object s with
                       | VObj o => or_raise AttributeError (getattr o p)
                       | _ => Raise AttributeError
                       end);
  for_each (track_unit now (_coordframe s) value_matrix p) vals (units s).

Definition set_object (v : value) (s : state) : state :=
  mkState (object s) (attrib_names s) (units s) (step s) (coordframe s)
    (plastic s) (values s) (n_step s) v (_coordframe s).
Definition set_coordframe (v : value) (s : state) : state :=
  mkState (object s) (attrib_names s) (units s) (step s) (coordframe s)
    (plastic s) (values s) (n_step s) (_object s) v.
Definition set_n_step (n : Z) (s : state) : state :=
  mkState (object s) (attrib_names s) (units s) (step s) (coordframe s)
    (plastic s) (values s) n (_object s) (_coordframe s).
Definition set_values (vals : gmap string (gmap (Qc * Qc) (list (Qc * Qc))))
    (s : state) : state :=
  mkState (object s) (attrib_names s) (units s) (step s) (coordframe s)
    (plastic s) vals (n_step s) (_object s) (_coordframe s).

(** [__call__] at simulation time [now]; the matrix [x] is only read. *)
Definition __call__ (now : Qc) (s : state) (x : matrix) : res state :=
  s ← (if is_None (_object s) then
         match object s with
         | VStr e => o ← eval e; Ok (set_object o s)
         | o => Ok (set_object o s)
         end
       else Ok s);
  s ← (if is_None (_coordframe s) then
         if is_str (coordframe s) && is_scs (_object s) then Raise ValueError
         else if is_scs (_object s) then Ok (set_coordframe (_object s) s)
         else match coordframe s with
              | VStr e => cf ← eval e; Ok (set_coordframe cf s)
              | _ => Raise ValueError
              end
       else Ok s);
  let s := set_n_step (n_step s + 1) s in
  if decide (n_step s = step s) then
    let s := set_n_step 0 s in
    if plastic s then
      vals ← for_each (track_attrib now s x) (values s) (attrib_names s);
      Ok (set_values vals s)
    else Ok s
  else Ok s.

(** Two states with the same parameters, counter and log. *)
Definition same_tracking (s s' : state) : Prop :=
  attrib_names s' = attrib_names s ∧ units s' = units s ∧
  step s' = step s ∧ plastic s' = plastic s ∧ values s' = values s ∧
  n_step s' = n_step s.

(** [values[p][u]], when both keys are present. *)
Definition values_at (vals : gmap string (gmap (Qc * Qc) (list (Qc * Qc))))
    (p : string) (u : Qc * Qc) : option (list (Qc * Qc)) :=
  m ← vals !! p; m !! u.

(** How many times [a] is listed in [l]. *)
Definition occurrences `{EqDecision A} (a : A) (l : list A) : nat :=
  length (filter (a =.) l).

(** A sequence of calls, each with the simulation time at which it is
    made. *)
Fixpoint run (s : state) (calls : list (Qc * matrix)) : res state :=
  match calls with
  | [] => Ok s
  | (now, x) :: calls' => s ← __call__ now s x; run s calls'
  end.

End AttributeTrackingTF.

End AttributeTrackingTF.

(** ** Inputs for concrete runs *)

Module Examples.

Definition q (a : Z) (b : positive) : Qc := Q2Qc (a # b).

(** A generator that returns four latencies, two of them outside the
    span of 15 ms. *)
Definition latencies (d1 d2 : nat) : matrix :=
  [[q (-100) 1; q (-7) 1]; [q 0 1; q 100 1]].

(** A scatter with [timestep = 5] and [span = 15], before its first
    call. *)
Definition scatter0 : @TemporalScatter.state unit :=
  TemporalScatter.init 5 15 ().

Definition inputs : list matrix :=
  [ [[q 1 1; q 2 1]; [q 3 1; q 4 1]];
    [[q 5 1; q 6 1]; [q 7 1; q 8 1]];
    [[q 9 1; q 10 1]; [q 11 1; q 12 1]];
    [[q 9 2; q 10 3]; [q 11 4; q 12 5]] ].

(** A scatter that has a buffer, and its store. *)
Definition scatter1 : @TemporalScatter.state unit :=
  TemporalScatter.mkState 5 10 (q (-5) 1, q 5 1) (Some 2%Z) false None
    (Some [[1%nat]]) (Some 0%nat) [] ().

Definition store1 : TemporalScatter.heap := {[ 0%nat := [[[q 3 1; q 4 1]]] ]}.

(** A kernel generator that fills the bounding box with sevens. *)
Definition sevens (bb : (Z * Z) * (Z * Z)) (size cx cy : Qc) : fmatrix :=
  let '((cmin, ymin), (cmax, ymax)) := bb in
  replicate (Z.to_nat (ymax - ymin))
    (replicate (Z.to_nat (cmax - cmin)) (Finite (q 7 1))).

(** The defaults of KernelMax: [kernel_radius = 0],
    [crop_radius_multiplier = 3], [density = 1]. *)
Definition kernel_defaults : KernelMax.params := KernelMax.mkParams 0 (q 3 1) 1.

Definition activity : fmatrix :=
  finite
    [ [q 1 1; q 2 1; q 3 1; q 0 1; q 0 1];
      [q 1 1; q 9 1; q 3 1; q 9 1; q 0 1];
      [q 1 1; q 9 1; q 3 1; q 9 1; q 0 1];
      [q 1 1; q 1 1; q 3 1; q 1 1; q 0 1];
      [q 1 1; q 9 1; q 3 1; q 9 1; q 0 1] ].

(** A row of activity that ends in minus infinity. *)
Definition unbounded : fmatrix :=
  [[Finite (q 1 1); Finite (q 0 1); Finite (q 0 1); Finite (q 0 1); Inf true]].

(** No random initialisation is asked for in these runs. *)
Definition no_noise (seed : Z) (d1 d2 : nat) : matrix := [].

(** The defaults of HomeostaticResponse, with the given learning rate
    and period. *)
Definition homeostatic (learning_rate period : Qc) : HomeostaticResponse.params :=
  HomeostaticResponse.mkParams (q 15 100) false 42 (q 24 1000) 1
    learning_rate (q 991 1000) (q 1 10) period.

Definition one : matrix := [[q 1 1]].

(** A sheet that is its own coordinate frame and maps every coordinate
    to the unit [(1, 0)]. *)
Definition sheet : AttributeTrackingTF.pyobject :=
  AttributeTrackingTF.mkObject true (λ _ _, (1%Z, 0%Z)) (λ _, None).

Definition no_eval (e : string) : res AttributeTrackingTF.value :=
  Raise Exception.

(** A generator of uniform samples that are all one quarter. *)
Definition quarters (d1 d2 : nat) : matrix :=
  replicate d1 (replicate d2 (q 1 4)).


(** A plastic instance after its first call, due for an update after
    time 1. *)
Definition homeostatic1 : HomeostaticResponse.state :=
  HomeostaticResponse.mkState (homeostatic (q 1 100) 1) true false
    (Some [[q 15 100]]) (Some [[q 24 1000]]) 1 (Some [[q 24 1000]])
    (Some [[q 17 20]]) [].

(** A 2 by 3 activity, and a generator whose pattern has the transposed
    shape. *)
Definition wide : matrix :=
  [[q 1 1; q 2 1; q 3 1]; [q 4 1; q 5 1; q 6 1]].

Definition tall (bb : (Z * Z) * (Z * Z)) : fmatrix :=
  finite [[q 10 1; q 20 1]; [q 30 1; q 40 1]; [q 50 1; q 60 1]].

(** A 2 by 3 activity with an infinite entry. *)
Definition wide_unbounded : fmatrix :=
  [[Finite (q 1 1); Finite (q 2 1); Inf false];
   [Finite (q 4 1); Finite (q 5 1); Finite (q 6 1)]].

(** An object that is not a coordinate frame. *)
Definition projection : AttributeTrackingTF.pyobject :=
  AttributeTrackingTF.mkObject false (λ _ _, (0%Z, 0%Z)) (λ _, None).

(** A tracker of the activity at [(0.0, 0.0)] of a sheet, with the given
    step. *)
Definition tracker (step : Z) : AttributeTrackingTF.state :=
  AttributeTrackingTF.init (AttributeTrackingTF.VObj sheet) ["x"%string]
    [(0, 0)] step AttributeTrackingTF.VNone true.

Definition column : matrix := [[q 1 1]; [q 2 1]].

End Examples.

(** * Properties *)

(** ** Results and arrays *)

Lemma bind_Ok {A B} (m : res A) (f : A → res B) (b : B) :
  m ≫= f = Ok b ↔ ∃ a, m = Ok a ∧ f a = Ok b.
Proof.
  destruct m as [a|e]; simpl.
  - split; [eauto | intros (a' & [= <-] & H); exact H].
  - split; [discriminate | intros (a' & [=] & _)].
Qed.

Lemma or_raise_Ok {A} e (o : option A) a : or_raise e o = Ok a ↔ o = Some a.
Proof. destruct o; simpl; split; congruence. Qed.

(** Takes a hypothesis [m ≫= f = Ok b] apart. *)
Tactic Notation "inv_bind" hyp(H) :=
  let a := fresh "a" in
  let Ha := fresh "Ha" in
  apply bind_Ok in H; destruct H as (a & Ha & H).

Tactic Notation "inv_bind" hyp(H) "as" ident(a) ident(Ha) :=
  apply bind_Ok in H; destruct H as (a & Ha & H).

Lemma shape_rect {A} (r c : nat) (m : list (list A)) :
  rect r c m → (0 < r)%nat → shape m = (r, c).
Proof.
  intros [Hl Hr] Hpos. unfold shape. destruct m as [|row m]; simpl in *; [lia|].
  inversion Hr; subst. congruence.
Qed.

Lemma mat_at_Some {A} (m : list (list A)) i j a :
  mat_at m i j = Some a ↔ ∃ row, m !! i = Some row ∧ row !! j = Some a.
Proof.
  unfold mat_at. destruct (m !! i) as [row|]; simpl.
  - split; [eauto | intros (r & [= <-] & H); exact H].
  - split; [discriminate | intros (r & [=] & _)].
Qed.

Lemma rect_mat_at {A} (r c : nat) (m : list (list A)) i j :
  rect r c m → (i < r)%nat → (j < c)%nat → is_Some (mat_at m i j).
Proof.
  intros [Hl Hr] Hi Hj.
  destruct (lookup_lt_is_Some_2 m i) as [row Hrow]; [lia|].
  rewrite Forall_lookup in Hr. specialize (Hr _ _ Hrow).
  destruct (lookup_lt_is_Some_2 row j) as [a Ha]; [lia|].
  exists a. apply mat_at_Some. eauto.
Qed.

Lemma mat_at_rect {A} (r c : nat) (m : list (list A)) i j a :
  rect r c m → mat_at m i j = Some a → (i < r)%nat ∧ (j < c)%nat.
Proof.
  intros [Hl Hr] (row & Hrow & Ha)%mat_at_Some.
  rewrite Forall_lookup in Hr. specialize (Hr _ _ Hrow).
  apply lookup_lt_Some in Hrow, Ha. lia.
Qed.

Lemma mat_at_zip_with {A B C} (f : A → B → C) (a : list (list A))
    (b : list (list B)) i j :
  mat_at (zip_with (zip_with f) a b) i j
  = (x ← mat_at a i j; y ← mat_at b i j; Some (f x y)).
Proof.
  unfold mat_at. rewrite lookup_zip_with.
  destruct (a !! i) as [ra|]; simpl; [|done].
  destruct (b !! i) as [rb|]; simpl.
  - rewrite lookup_zip_with. done.
  - by destruct (ra !! j).
Qed.

Lemma rect_zip_with {A B C} (f : A → B → C) r c (a : list (list A))
    (b : list (list B)) :
  rect r c a → rect r c b → rect r c (zip_with (zip_with f) a b).
Proof.
  intros [Hla Hra] [Hlb Hrb]. split.
  - rewrite length_zip_with. lia.
  - apply Forall_lookup. intros i row Hrow.
    apply lookup_zip_with_Some in Hrow as (ra & rb & -> & Ha & Hb).
    rewrite Forall_lookup in Hra. rewrite Forall_lookup in Hrb.
    rewrite length_zip_with, (Hra _ _ Ha), (Hrb _ _ Hb). lia.
Qed.

(** ** TemporalScatter *)

Section TemporalScatter_facts.

Import TemporalScatter.

Context {base_state : Type}.
Variable super_state_push : base_state → base_state.
Variable super_state_pop : base_state → base_state.
Variable distribution : nat → nat → matrix.

Implicit Types (s : @state base_state) (h : heap).

(** *** The depth of the buffer *)

Lemma compute_depth_Ok s d s' :
  compute_depth s = Ok (d, s') →
  timestep s ≠ 0%Z ∧ d = (span s / timestep s)%Z ∧ d ≠ 0%Z ∧
  span s = (d * timestep s)%Z ∧ s' = set_depth (Some d) s.
Proof.
  unfold compute_depth. intros H.
  destruct (decide (timestep s = 0%Z)) as [|Hts]; [discriminate|].
  destruct (decide _) as [|Hn]; [discriminate|].
  injection H as <- <-.
  apply Decidable.not_or in Hn as [Hq Hr%dec_stable].
  repeat split; try done.
  rewrite (Z.div_mod (span s) (timestep s)) at 1 by done. lia.
Qed.

Lemma depth_nonzero s d s' : depth s = Ok (d, s') → d ≠ 0%Z.
Proof.
  unfold depth. intros H.
  destruct (_depth s) as [c|].
  - destruct (decide (c ≠ 0%Z)).
    + by injection H as <- <-.
    + by apply compute_depth_Ok in H as (_ & _ & ? & _).
  - by apply compute_depth_Ok in H as (_ & _ & ? & _).
Qed.

(** On an instance that has not computed its depth yet, and for a
    positive [timestep] and a [span] within its declared bounds, [depth]
    raises exactly when [span] is not an exact positive multiple of
    [timestep], and returns [span / timestep] otherwise. *)
Lemma depth_positive_timestep s :
  _depth s = None → (0 < timestep s)%Z → (0 ≤ span s)%Z →
  ((∃ e, depth s = Raise e) ↔ ¬ exact_positive_multiple (span s) (timestep s)) ∧
  (∀ d s', depth s = Ok (d, s') →
     d = (span s / timestep s)%Z ∧ span s = (d * timestep s)%Z).
Proof.
  intros Hnone Hts Hspan. unfold depth. rewrite Hnone. split.
  - unfold compute_depth.
    destruct (decide (timestep s = 0%Z)) as [|_]; [lia|].
    destruct (decide _) as [Hbad|Hgood].
    + split; [|eauto]. intros _ (k & Hk & Heq).
      rewrite Heq, Z.div_mul, Z.mod_mul in Hbad by lia. lia.
    + split; [intros [e [=]]|]. intros Hno. exfalso. apply Hno.
      apply Decidable.not_or in Hgood as [Hq Hr%dec_stable].
      exists (span s / timestep s)%Z. split.
      * pose proof (Z.div_pos (span s) (timestep s)). lia.
      * rewrite (Z.div_mod (span s) (timestep s)) at 1 by lia. lia.
  - intros d s' H. by apply compute_depth_Ok in H as (_ & ? & _ & ? & _).
Qed.

(** For a [span] within its declared bounds and any [timestep], the first
    access to [depth] raises exactly when [timestep] is 0, [span] is 0 or
    [span % timestep] is not 0: the sign of [timestep] is not looked at. *)
Lemma depth_raises_iff s :
  _depth s = None → (0 ≤ span s)%Z →
  (∃ e, depth s = Raise e) ↔
  timestep s = 0%Z ∨ span s = 0%Z ∨ (span s mod timestep s)%Z ≠ 0%Z.
Proof.
  intros Hnone Hspan. unfold depth, compute_depth. rewrite Hnone.
  destruct (decide (timestep s = 0%Z)) as [Hz|Hnz]; [split; eauto|].
  destruct (decide _) as [Hbad|Hgood].
  - split; [intros _|eauto]. right. destruct Hbad as [Hq|Hr]; [|by right].
    destruct (decide ((span s mod timestep s)%Z = 0%Z)) as [Hr|Hr]; [|by right].
    left. rewrite (Z.div_mod (span s) (timestep s)) by done. lia.
  - split; [intros [e [=]]|]. intros [Hz|[Hz|Hr]]; [done| |].
    + exfalso. apply Hgood. left. rewrite Hz. apply Z.div_0_l. done.
    + exfalso. apply Hgood. by right.
Qed.

(** *** The depth map *)

Lemma linspace_Ok start stop num l :
  linspace start stop num = Ok l → (0 ≤ num)%Z ∧ length l = Z.to_nat num.
Proof.
  unfold linspace. destruct (decide (num < 0)%Z); [discriminate|].
  intros [= <-]. rewrite length_fmap, length_seq. lia.
Qed.

Lemma digitize1_le bins v : (digitize1 bins v ≤ length bins)%nat.
Proof.
  induction bins as [|b bins IH]; simpl; [lia|].
  destruct (decide (b ≤ v)); lia.
Qed.

Lemma pull_back_lt n k : (0 < n)%nat → (k ≤ n)%nat → (pull_back n k < n)%nat.
Proof. intros Hn Hk. unfold pull_back. destruct (decide (k = n)); lia. Qed.

Lemma chunks_mat_at {A} d1 d2 (l : list A) i j a :
  mat_at (chunks d1 d2 l) i j = Some a → a ∈ l.
Proof.
  revert l i. induction d1 as [|d1 IH]; intros l i H.
  - apply mat_at_Some in H as (row & Hrow & _). done.
  - destruct i as [|i]; simpl in H.
    + apply lookup_take_Some in H as [H _]. by eapply list_elem_of_lookup_2.
    + apply IH in H. apply list_elem_of_lookup in H as [n Hn].
      rewrite lookup_drop in Hn. by eapply list_elem_of_lookup_2.
Qed.

Lemma chunks_rect {A} d1 d2 (l : list A) :
  length l = (d1 * d2)%nat → rect d1 d2 (chunks d1 d2 l).
Proof.
  revert l. induction d1 as [|d1 IH]; intros l Hl; [by split|].
  destruct (IH (drop d2 l)) as [Hlen Hrows].
  { rewrite length_drop. lia. }
  split; simpl; [by rewrite Hlen|].
  constructor; [|done]. rewrite length_take. lia.
Qed.

Lemma compute_depth_map_Ok s d1 d2 m s' :
  _compute_depth_map distribution s (d1, d2) = Ok (m, s') →
  ∃ d, depth (set_raw_depth_map (Some (distribution d1 d2)) s) = Ok (d, s') ∧
    (0 < d)%Z ∧ rect d1 d2 m ∧
    ∀ i j k, mat_at m i j = Some k → (k < Z.to_nat d)%nat.
Proof.
  unfold _compute_depth_map. destruct (limits s) as [min_lim max_lim].
  intros H. inv_bind H. destruct a as [d s1]. inv_bind H.
  apply linspace_Ok in Ha0 as [Hd Hlen]. inv_bind H. injection H as <- <-.
  pose proof (depth_nonzero _ _ _ Ha) as Hnz.
  unfold reshape2 in Ha0. destruct (decide _) as [Hsz|]; [|discriminate].
  injection Ha0 as <-.
  exists d. repeat split; [done | lia | apply chunks_rect, Hsz | ..].
  - apply Forall_forall. intros row Hrow. destruct (chunks_rect _ _ _ Hsz) as [_ Hr].
    rewrite Forall_forall in Hr. by apply Hr.
  - intros i j k Hk%chunks_mat_at.
    apply list_elem_of_fmap in Hk as (k0 & -> & Hk0).
    apply list_elem_of_fmap in Hk0 as (v & -> & _).
    rewrite Hlen. apply pull_back_lt; [lia|].
    rewrite <- Hlen. apply digitize1_le.
Qed.

(** *** Saving and restoring the state *)

Lemma alloc_fresh h b l h' :
  alloc h b = (l, h') → h !! l = None ∧ h' = <[l := b]> h.
Proof.
  unfold alloc. intros [= <- <-]. split; [|done].
  apply not_elem_of_dom, is_fresh.
Qed.


(** *** One call *)

Lemma mapM_seq_Some {B} (f : nat → option B) n l :
  mapM f (seq 0 n) = Some l →
  length l = n ∧ ∀ i y, l !! i = Some y → f i = Some y.
Proof.
  intros H%mapM_Some_1. split.
  - apply Forall2_length in H. rewrite length_seq in H. done.
  - intros i y Hy.
    destruct (Forall2_lookup_r _ _ _ _ _ H Hy) as (k & Hk & Hf).
    apply lookup_seq in Hk as [-> _]. done.
Qed.

Lemma mapM_seq_is_Some {B} (f : nat → option B) n :
  (∀ i, (i < n)%nat → is_Some (f i)) → is_Some (mapM f (seq 0 n)).
Proof.
  intros H. apply mapM_is_Some_2, Forall_forall.
  intros i Hi%elem_of_seq. apply H. lia.
Qed.

Lemma roll1_assign {A} (e : A) (v : list A) :
  (0 < length v)%nat → <[0%nat := e]> (roll1 v) = e :: take (length v - 1) v.
Proof.
  intros Hv. unfold roll1.
  destruct (drop (length v - 1) v) as [|a [|a' w]] eqn:Hd.
  - apply (f_equal length) in Hd. rewrite length_drop in Hd. simpl in Hd. lia.
  - done.
  - apply (f_equal length) in Hd. rewrite length_drop in Hd. simpl in Hd. lia.
Qed.

Lemma rect3_rect d1 d2 d (b : buffer3) : rect3 d1 d2 d b → rect d1 d2 b.
Proof.
  intros [Hl Hr]. split; [done|].
  eapply Forall_impl; [exact Hr|]. by intros row [? _].
Qed.

Lemma rect3_vec d1 d2 d (b : buffer3) i j v :
  rect3 d1 d2 d b → mat_at b i j = Some v → length v = d.
Proof.
  intros [_ Hr] (row & Hrow & Hv)%mat_at_Some.
  rewrite Forall_lookup in Hr. destruct (Hr _ _ Hrow) as [_ Hvs].
  rewrite Forall_lookup in Hvs. eauto.
Qed.

Lemma mat_at_roll (b : buffer3) i j :
  mat_at (roll b) i j = roll1 <$> mat_at b i j.
Proof.
  unfold roll, mat_at. rewrite list_lookup_fmap.
  destruct (b !! i) as [row|]; simpl; [|done]. apply list_lookup_fmap.
Qed.

Lemma shape_roll (b : buffer3) : shape (roll b) = shape b.
Proof.
  unfold shape, roll. rewrite length_fmap. destruct b as [|row b]; simpl; [done|].
  by rewrite length_fmap.
Qed.

(** After [np.roll] and the assignment to slot 0, a depth vector holds
    the new value followed by all its former entries but the last. *)
Lemma assign_slot0_roll d1 d2 d (x : matrix) (b : buffer3) :
  rect d1 d2 x → rect3 d1 d2 d b → (0 < d1)%nat → (0 < d)%nat →
  ∃ b', assign_slot0 x (roll b) = Ok b' ∧ rect3 d1 d2 d b' ∧
    ∀ i j e v, mat_at x i j = Some e → mat_at b i j = Some v →
      mat_at b' i j = Some (e :: take (d - 1) v).
Proof.
  intros Hx Hb Hd1 Hd. unfold assign_slot0.
  rewrite shape_roll, (shape_rect _ _ _ Hx Hd1),
    (shape_rect _ _ _ (rect3_rect _ _ _ _ Hb) Hd1).
  rewrite decide_True by done. eexists. split; [reflexivity|].
  assert (∀ i j e v, mat_at x i j = Some e → mat_at b i j = Some v →
    mat_at (zip_with (zip_with (λ e v, <[0%nat := e]> v)) x (roll b)) i j
    = Some (e :: take (d - 1) v)) as Hat.
  { intros i j e v He Hv. rewrite mat_at_zip_with, He, mat_at_roll, Hv. simpl.
    rewrite roll1_assign; rewrite (rect3_vec _ _ _ _ _ _ _ Hb Hv); done. }
  split; [|exact Hat].
  destruct Hx as [Hxl Hxr]. destruct Hb as [Hbl Hbr]. split.
  - rewrite length_zip_with. unfold roll. rewrite length_fmap. lia.
  - apply Forall_lookup. intros i row Hrow.
    apply lookup_zip_with_Some in Hrow as (rx & rb & -> & Hrx & Hrb).
    unfold roll in Hrb. apply list_lookup_fmap_Some in Hrb as (rb0 & -> & Hrb0).
    rewrite Forall_lookup in Hxr. rewrite Forall_lookup in Hbr.
    specialize (Hxr _ _ Hrx). destruct (Hbr _ _ Hrb0) as [Hlen Hvs].
    split.
    + rewrite length_zip_with, length_fmap. lia.
    + apply Forall_lookup. intros j w Hw.
      apply lookup_zip_with_Some in Hw as (e & v & -> & He & Hv).
      apply list_lookup_fmap_Some in Hv as (v0 & -> & Hv0).
      rewrite Forall_lookup in Hvs. specialize (Hvs _ _ Hv0).
      rewrite roll1_assign by lia. simpl. rewrite length_take. lia.
Qed.

(** The fancy indexing of [__call__] reads, for every unit, the slot of
    its depth vector that the depth map names. *)
Lemma gather_Ok d1 d2 d (b : buffer3) (dm : list (list nat)) :
  rect3 d1 d2 d b → rect d1 d2 dm → (0 < d1)%nat →
  (∀ i j k, mat_at dm i j = Some k → (k < d)%nat) →
  ∃ g, gather b dm d1 d2 = Ok g ∧ rect d1 d2 g ∧
    ∀ i j k v, mat_at dm i j = Some k → mat_at b i j = Some v →
      mat_at g i j = v !! k.
Proof.
  intros Hb Hdm Hd1 Hlt. unfold gather.
  rewrite (shape_rect _ _ _ Hdm Hd1), decide_True by done.
  set (cell i j := d ← mat_at dm i j; v ← mat_at b i j; v !! d).
  assert (∀ i j, (i < d1)%nat → (j < d2)%nat → is_Some (cell i j)) as Hcell.
  { intros i j Hi Hj. unfold cell.
    destruct (rect_mat_at _ _ _ _ _ Hdm Hi Hj) as [k Hk].
    destruct (rect_mat_at _ _ _ _ _ (rect3_rect _ _ _ _ Hb) Hi Hj) as [v Hv].
    rewrite Hk, Hv. simpl. apply lookup_lt_is_Some_2.
    rewrite (rect3_vec _ _ _ _ _ _ _ Hb Hv). eauto. }
  destruct (mapM_seq_is_Some (λ i, mapM (cell i) (seq 0 d2)) d1) as [g Hg].
  { intros i Hi. apply mapM_seq_is_Some. eauto. }
  exists g. split; [unfold cell in Hg; by rewrite Hg|].
  apply mapM_seq_Some in Hg as [Hlen Hrows]. split; [split; [done|]|].
  - apply Forall_lookup. intros i row Hrow.
    by apply Hrows, mapM_seq_Some in Hrow as [? _].
  - intros i j k v Hk Hv.
    destruct (mat_at_rect _ _ _ _ _ _ Hdm Hk) as [Hi Hj].
    destruct (lookup_lt_is_Some_2 g i) as [row Hrow]; [lia|].
    pose proof (Hrows _ _ Hrow) as Hr. apply mapM_seq_Some in Hr as [Hrl Hr].
    destruct (lookup_lt_is_Some_2 row j) as [y Hy]; [lia|].
    unfold mat_at at 1. rewrite Hrow. simpl. rewrite Hy.
    apply Hr in Hy. unfold cell in Hy. rewrite Hk, Hv in Hy. done.
Qed.

Lemma fill0_plus d1 d2 (x g : matrix) :
  rect d1 d2 x → rect d1 d2 g → (0 < d1)%nat →
  ∃ y, map2 Qcplus (fill0 x) g = Ok y ∧ rect d1 d2 y ∧
    ∀ i j, mat_at y i j = mat_at g i j.
Proof.
  intros Hx Hg Hd1. unfold map2.
  assert (rect d1 d2 (fill0 x)) as Hf.
  { destruct Hx as [Hl Hr]. unfold fill0. split; [by rewrite length_fmap|].
    apply Forall_fmap. eapply Forall_impl; [exact Hr|].
    intros row Hrow. simpl. by rewrite length_fmap. }
  rewrite (shape_rect _ _ _ Hf Hd1), (shape_rect _ _ _ Hg Hd1).
  rewrite decide_True by done. eexists. split; [reflexivity|].
  split; [by apply rect_zip_with|].
  intros i j. rewrite mat_at_zip_with.
  destruct (mat_at g i j) as [e|] eqn:He.
  - destruct (mat_at_rect _ _ _ _ _ _ Hg He) as [Hi Hj].
    destruct (rect_mat_at _ _ _ _ _ Hf Hi Hj) as [z Hz]. rewrite Hz. simpl.
    f_equal. unfold fill0, mat_at in Hz. rewrite list_lookup_fmap in Hz.
    destruct (x !! i) as [row|]; simpl in Hz; [|done].
    rewrite list_lookup_fmap in Hz. destruct (row !! j); simpl in Hz; [|done].
    injection Hz as <-. ring.
  - by destruct (mat_at (fill0 x) i j).
Qed.

(** A call on an initialised instance: every depth vector takes the new
    value in front and drops its last entry, and every unit reads the
    slot of its delay bin. *)
Lemma call_initialized h s d1 d2 d (x : matrix) (b : buffer3) dm :
  first_call s = false → buffer_of h s = Some b → rect3 d1 d2 d b →
  depth_map s = Some dm → rect d1 d2 dm →
  (∀ i j k, mat_at dm i j = Some k → (k < d)%nat) →
  (0 < d1)%nat → (0 < d)%nat → rect d1 d2 x →
  ∃ h' s' y b',
    __call__ distribution (h, s) x = Ok (h', s', y) ∧
    first_call s' = false ∧ depth_map s' = Some dm ∧
    buffer_of h' s' = Some b' ∧ rect3 d1 d2 d b' ∧ rect d1 d2 y ∧
    (∀ i j e v, mat_at x i j = Some e → mat_at b i j = Some v →
       mat_at b' i j = Some (e :: take (d - 1) v)) ∧
    (∀ i j k v, mat_at dm i j = Some k → mat_at b' i j = Some v →
       mat_at y i j = v !! k).
Proof.
  intros Hfc Hbuf Hb Hdm Hdmr Hlt Hd1 Hd Hx.
  destruct (assign_slot0_roll _ _ _ _ _ Hx Hb Hd1 Hd) as (b' & Hb' & Hb'r & Hb'at).
  destruct (gather_Ok _ _ _ _ _ Hb'r Hdmr Hd1 Hlt) as (g & Hg & Hgr & Hgat).
  destruct (fill0_plus _ _ _ _ Hx Hgr Hd1) as (y & Hy & Hyr & Hyat).
  unfold __call__. rewrite (shape_rect _ _ _ Hx Hd1), Hfc.
  cbn [mbind res_bind]. rewrite Hbuf. cbn [or_raise alloc mbind res_bind].
  rewrite Hb'. cbn [mbind res_bind set_buffer depth_map]. rewrite Hdm.
  cbn [or_raise mbind res_bind]. rewrite Hg. cbn [mbind res_bind]. rewrite Hy.
  cbn [mbind res_bind].
  eexists _, _, y, b'. split; [reflexivity|].
  repeat split; try done.
  - unfold buffer_of. simpl. by rewrite lookup_insert_eq.
  - by destruct Hb'r.
  - by destruct Hb'r.
  - by destruct Hyr.
  - by destruct Hyr.
  - intros i j k v Hk Hv. rewrite Hyat. by apply Hgat.
Qed.

(** *** The first call *)

Lemma depth_cached s d : _depth s = Some d → d ≠ 0%Z → depth s = Ok (d, s).
Proof. intros Hc Hd. unfold depth. rewrite Hc. by rewrite decide_True. Qed.

Lemma depth_stores s d s' :
  depth s = Ok (d, s') →
  _depth s' = Some d ∧ first_call s' = first_call s ∧
  _buffer s' = _buffer s ∧ depth_map s' = depth_map s.
Proof.
  unfold depth. intros H.
  assert (compute_depth s = Ok (d, s') → _depth s' = Some d ∧
    first_call s' = first_call s ∧ _buffer s' = _buffer s ∧
    depth_map s' = depth_map s) as Hcomp.
  { intros (_ & _ & _ & _ & ->)%compute_depth_Ok. done. }
  destruct (_depth s) as [c|] eqn:Hc; [|auto].
  destruct (decide (c ≠ 0%Z)); [|auto]. by injection H as <- <-.
Qed.

Lemma zeros3_rect3 d1 d2 d : rect3 d1 d2 d (zeros3 d1 d2 d).
Proof.
  unfold zeros3. split; [by rewrite length_replicate|].
  apply Forall_replicate. split; [by rewrite length_replicate|].
  apply Forall_replicate. by rewrite length_replicate.
Qed.

Lemma compute_depth_map_succeeds s d d1 d2 :
  _depth s = Some (Z.of_nat d) → (0 < d)%nat →
  length (concat (distribution d1 d2)) = (d1 * d2)%nat →
  ∃ m, _compute_depth_map distribution s (d1, d2)
       = Ok (m, set_raw_depth_map (Some (distribution d1 d2)) s).
Proof.
  intros Hc Hd Hlen. unfold _compute_depth_map.
  destruct (limits s) as [min_lim max_lim].
  rewrite (depth_cached _ (Z.of_nat d)) by (simpl; done || lia).
  cbn [mbind res_bind]. unfold linspace.
  rewrite decide_False by lia. cbn [mbind res_bind]. unfold reshape2.
  rewrite decide_True; [by eexists|].
  unfold digitize. by rewrite !length_fmap.
Qed.

Lemma first_call_init_ready h s d1 d2 d :
  ready distribution h s d1 d2 d → first_call s = true →
  ∃ h1 s1 dm,
    first_call_init distribution h s d1 d2 = Ok (h1, s1) ∧
    first_call s1 = false ∧ buffer_of h1 s1 = Some (zeros3 d1 d2 d) ∧
    depth_map s1 = Some dm ∧ rect d1 d2 dm ∧
    ∀ i j k, mat_at dm i j = Some k → (k < d)%nat.
Proof.
  intros [Hd Hr] Hfc. rewrite Hfc in Hr. destruct Hr as [[s' Hdep] Hlen].
  unfold first_call_init. rewrite Hdep. cbn [mbind res_bind].
  rewrite decide_False by lia. cbn [alloc]. rewrite Nat2Z.id.
  apply depth_stores in Hdep as (Hc & _ & _ & _).
  set (s2 := set_buffer (Some (fresh (dom h))) s').
  destruct (compute_depth_map_succeeds s2 d d1 d2) as [dm Hdm]; [done..|].
  rewrite Hdm. cbn [mbind res_bind].
  apply compute_depth_map_Ok in Hdm as (dz & Hdz & _ & Hrect & Hlt).
  rewrite (depth_cached _ (Z.of_nat d)) in Hdz by (simpl; done || lia).
  injection Hdz as <-. rewrite Nat2Z.id in Hlt.
  eexists _, _, dm. split; [reflexivity|]. repeat split; try done.
  - unfold buffer_of. simpl. by rewrite lookup_insert_eq.
  - by destruct Hrect.
  - by destruct Hrect.
Qed.

Lemma first_call_unfold h s h1 s1 d1 d2 (x : matrix) :
  first_call s = true → shape x = (d1, d2) →
  first_call_init distribution h s d1 d2 = Ok (h1, s1) →
  first_call s1 = false →
  __call__ distribution (h, s) x = __call__ distribution (h1, s1) x.
Proof.
  intros Hfc Hsh Hinit Hfc1. unfold __call__.
  rewrite Hsh, Hfc, Hfc1, Hinit. done.
Qed.

(** *** A sequence of calls *)

(** From an initialised state with buffer [b], the output of call [n]
    (counted from 0) at a unit with delay bin [k] is the input of call
    [n - k] when that many calls have been made, and otherwise what the
    buffer held in slot [k - n - 1] before the calls. *)
Lemma run_initialized d1 d2 d dm (xs : list matrix) :
  rect d1 d2 dm → (∀ i j k, mat_at dm i j = Some k → (k < d)%nat) →
  (0 < d1)%nat → (0 < d)%nat → Forall (rect d1 d2) xs →
  ∀ h s (b : buffer3),
    first_call s = false → buffer_of h s = Some b → rect3 d1 d2 d b →
    depth_map s = Some dm →
    ∃ h' s' ys,
      run distribution (h, s) xs = Ok (h', s', ys) ∧
      first_call s' = false ∧ depth_map s' = Some dm ∧
      length ys = length xs ∧
      ∀ n y i j k, ys !! n = Some y → mat_at dm i j = Some k →
        mat_at y i j =
          if decide (k ≤ n)%nat then x ← xs !! (n - k)%nat; mat_at x i j
          else v ← mat_at b i j; v !! (k - n - 1)%nat.
Proof.
  intros Hdmr Hlt Hd1 Hd Hxs. induction Hxs as [|x xs Hx Hxs IH];
    intros h s b Hfc Hbuf Hb Hdm.
  - exists h, s, []. repeat split; try done.
  - destruct (call_initialized h s d1 d2 d x b dm) as
      (h1 & s1 & y & b1 & Hcall & Hfc1 & Hdm1 & Hbuf1 & Hb1 & Hy & Hb1at & Hyat);
      [done..|].
    destruct (IH h1 s1 b1) as (h' & s' & ys & Hrun & Hfc' & Hdm' & Hlen & Hys);
      [done..|].
    exists h', s', (y :: ys). cbn [run]. rewrite Hcall. cbn [mbind res_bind].
    rewrite Hrun. cbn [mbind res_bind]. repeat split; try done.
    { simpl. by rewrite Hlen. }
    intros n y' i j k Hn Hk.
    destruct (mat_at_rect _ _ _ _ _ _ Hdmr Hk) as [Hi Hj].
    destruct (rect_mat_at _ _ _ _ _ Hx Hi Hj) as [e He].
    destruct (rect_mat_at _ _ _ _ _ (rect3_rect _ _ _ _ Hb) Hi Hj) as [v Hv].
    pose proof (Hb1at _ _ _ _ He Hv) as Hv1.
    pose proof (Hlt _ _ _ Hk) as Hkd.
    destruct n as [|n]; simpl in Hn.
    + injection Hn as <-. rewrite (Hyat _ _ _ _ Hk Hv1).
      destruct k as [|k]; simpl.
      * by rewrite He.
      * rewrite Hv. simpl. rewrite lookup_take_lt by lia. f_equal. lia.
    + rewrite (Hys _ _ _ _ _ Hn Hk).
      destruct (decide (k ≤ n)%nat), (decide (k ≤ S n)%nat); try lia.
      * replace (S n - k)%nat with (S (n - k)) by lia. done.
      * rewrite Hv1. simpl. replace (k - n - 1)%nat with 0%nat by lia.
        replace (S n - k)%nat with 0%nat by lia. simpl. by rewrite He.
      * rewrite Hv1, Hv. simpl.
        replace (k - n - 1)%nat with (S (k - S n - 1)) by lia. simpl.
        by rewrite lookup_take_lt by lia.
Qed.

(** C1: in a state that is ready for [d1] by [d2] matrices with a buffer
    of depth [d] (a valid configuration), a sequence of calls with such
    matrices succeeds, and once at least [d] calls have been made, the
    value a call writes at a unit with delay bin [k = depth_map[i, j]] is
    the input value at that unit of [k] calls before ([k = 0]: of the
    call itself), for every unit; every [k] is in [0, d). *)
Theorem scatter_outputs_delayed_inputs h s d1 d2 d (xs : list matrix) :
  ready distribution h s d1 d2 d → (0 < d1)%nat →
  Forall (rect d1 d2) xs → (d ≤ length xs)%nat →
  ∃ h' s' ys dm,
    run distribution (h, s) xs = Ok (h', s', ys) ∧
    length ys = length xs ∧ depth_map s' = Some dm ∧
    ∀ n y, ys !! n = Some y → (d ≤ S n)%nat →
      ∀ i j, (i < d1)%nat → (j < d2)%nat →
        ∃ k x e, mat_at dm i j = Some k ∧ (k < d)%nat ∧
          xs !! (n - k)%nat = Some x ∧ mat_at x i j = Some e ∧
          mat_at y i j = Some e.
Proof.
  intros Hready Hd1 Hxs Hlen.
  assert (∃ h0 s0 (b : buffer3) dm,
    run distribution (h, s) xs = run distribution (h0, s0) xs ∧
    first_call s0 = false ∧ buffer_of h0 s0 = Some b ∧ rect3 d1 d2 d b ∧
    depth_map s0 = Some dm ∧ rect d1 d2 dm ∧
    ∀ i j k, mat_at dm i j = Some k → (k < d)%nat) as
    (h0 & s0 & b & dm & Hrun0 & Hfc & Hbuf & Hb & Hdm & Hdmr & Hlt).
  { destruct (first_call s) eqn:Hfc.
    - destruct (first_call_init_ready _ _ _ _ _ Hready Hfc) as
        (h1 & s1 & dm & Hinit & Hfc1 & Hbuf1 & Hdm1 & Hdmr & Hlt).
      exists h1, s1, (zeros3 d1 d2 d), dm. repeat split; try done.
      + destruct Hready as [Hd _].
        destruct Hxs as [|x xs Hx Hxs]; [simpl in Hlen; lia|]. cbn [run].
        by rewrite (first_call_unfold h s h1 s1 d1 d2 x Hfc
          (shape_rect _ _ _ Hx Hd1) Hinit Hfc1).
      + apply zeros3_rect3.
      + apply zeros3_rect3.
      + by destruct Hdmr.
      + by destruct Hdmr.
    - destruct Hready as [Hd Hr]. rewrite Hfc in Hr.
      destruct Hr as (b & dm & Hbuf & Hb & Hdm & Hdmr & Hlt).
      exists h, s, b, dm. repeat split; try done.
      + by destruct Hb.
      + by destruct Hb.
      + by destruct Hdmr.
      + by destruct Hdmr. }
  destruct Hready as [Hd _].
  destruct (run_initialized d1 d2 d dm xs Hdmr Hlt Hd1 Hd Hxs h0 s0 b Hfc Hbuf Hb Hdm)
    as (h' & s' & ys & Hrun & _ & Hdm' & Hlen' & Hys).
  exists h', s', ys, dm. rewrite Hrun0. repeat split; try done.
  intros n y Hy Hn i j Hi Hj.
  destruct (rect_mat_at _ _ _ _ _ Hdmr Hi Hj) as [k Hk].
  pose proof (Hlt _ _ _ Hk) as Hkd.
  destruct (lookup_lt_is_Some_2 xs (n - k)) as [x Hx].
  { apply lookup_lt_Some in Hy. lia. }
  rewrite Forall_lookup in Hxs.
  destruct (rect_mat_at _ _ _ _ _ (Hxs _ _ Hx) Hi Hj) as [e He].
  exists k, x, e. repeat split; try done.
  rewrite (Hys _ _ _ _ _ Hy Hk), decide_True by lia. rewrite Hx. done.
Qed.


(** C10: every entry of the depth map that [_compute_depth_map] returns
    is a delay bin in [0, depth) (a sample digitized beyond the last bin
    edge is pulled back to [depth - 1]), so looking the entry up along
    the depth axis of a buffer of that depth is in range, whatever the
    distribution returns. *)
Theorem depth_map_entries_below_depth s shp m s' :
  _compute_depth_map distribution s shp = Ok (m, s') →
  ∃ d, depth (set_raw_depth_map (Some (distribution shp.1 shp.2)) s) = Ok (d, s') ∧
    ∀ i j k, mat_at m i j = Some k →
      (0 ≤ Z.of_nat k < d)%Z ∧
      ∀ v : list Qc, length v = Z.to_nat d → is_Some (v !! k).
Proof.
  destruct shp as [d1 d2]. intros H.
  apply compute_depth_map_Ok in H as (d & Hd & Hpos & _ & Hlt).
  exists d. split; [done|]. intros i j k Hk. specialize (Hlt _ _ _ Hk).
  split; [lia|]. intros v Hv. apply lookup_lt_is_Some_2. lia.
Qed.

End TemporalScatter_facts.

(** C6: a fresh instance with [span = 120] and [timestep = -5], values the
    parameter declarations admit, does not raise on [depth] but returns
    [-24], although 120 is not a positive multiple of -5. *)
Theorem depth_accepts_negative_timestep :
  TemporalScatter.depth (TemporalScatter.init (-5) 120 ())
  = Ok ((-24)%Z,
        TemporalScatter.set_depth (Some (-24)%Z) (TemporalScatter.init (-5) 120 ()))
  ∧ ¬ TemporalScatter.exact_positive_multiple 120 (-5).
Proof.
  split; [reflexivity|]. intros (k & Hk & Heq). lia.
Qed.

(** ** KernelMax *)

Section KernelMax_facts.

Import KernelMax.

Variable neighborhood_kernel_generator :
  (Z * Z) * (Z * Z) → Qc → Qc → Qc → fmatrix.

(** *** The crop radius *)

Lemma py_max_ge a b : a ≤ py_max a b.
Proof.
  unfold py_max. destruct (decide (a < b)) as [H|H]; [|done].
  by apply Qclt_le_weak.
Qed.

Lemma py_int_floor v : 0 ≤ v → py_int v = Qfloor (this v).
Proof.
  intros Hv. unfold py_int, Qfloor. destruct v as [[n d] Hc]. simpl.
  apply Z.quot_div_nonneg; [|done].
  unfold Qcle, Qle in Hv. simpl in Hv. lia.
Qed.

(** C2, as the code has it: the half-width of the crop region is
    [max(1.25, kernel_radius*density*crop_radius_multiplier)] with its
    fraction cut off, that is its floor, and is at least 1; with
    [kernel_radius = 0] it is 1. *)
Theorem crop_radius_is_floor p :
  crop_radius p
  = Qfloor (this (py_max (Q2Qc (5 # 4))
                    (density p * kernel_radius p * crop_radius_multiplier p)))
  ∧ (1 ≤ crop_radius p)%Z
  ∧ crop_radius (mkParams 0 (crop_radius_multiplier p) (density p)) = 1%Z.
Proof.
  assert (0 ≤ Q2Qc (5 # 4)) as H0 by done.
  assert (∀ v, 0 ≤ py_max (Q2Qc (5 # 4)) v) as Hpos.
  { intros v. etrans; [exact H0 | apply py_max_ge]. }
  unfold crop_radius, radius. rewrite py_int_floor by apply Hpos.
  split; [done|]. split.
  - change 1%Z with (Qfloor (this (Q2Qc (5 # 4)))).
    apply Qfloor_resp_le. apply (py_max_ge (Q2Qc (5 # 4))).
  - unfold crop_radius, radius. simpl. rewrite Qcmult_0_r, Qcmult_0_l. done.
Qed.

(** *** The order of float64 *)

Lemma flt_spec a b : flt a b ↔ fle a b ∧ ¬ fle b a.
Proof. unfold flt. by rewrite andb_True, negb_True. Qed.

Lemma fle_refl a : is_nan a = false → fle a a.
Proof.
  destruct a as [p|[]|]; simpl; try done. intros _.
  apply bool_decide_pack, Qcle_refl.
Qed.

Lemma fle_trans a b c : fle a b → fle b c → fle a c.
Proof.
  destruct a as [p|[]|], b as [q|[]|], c as [u|[]|]; simpl; try done.
  rewrite !bool_decide_spec. apply Qcle_trans.
Qed.

Lemma fle_total a b :
  is_nan a = false → is_nan b = false → ¬ fle a b → fle b a.
Proof.
  destruct a as [p|[]|], b as [q|[]|]; simpl; try done.
  rewrite !bool_decide_spec. intros _ _ H.
  by apply Qclt_le_weak, Qcnot_le_lt.
Qed.

(** *** The winner *)

Lemma argmax_from_lt best bv k l :
  (best < k)%nat → (argmax_from best bv k l < k + length l)%nat.
Proof.
  revert best bv k. induction l as [|a l IH]; intros best bv k Hk; simpl.
  - lia.
  - destruct (is_nan bv); [lia|].
    destruct (fle a bv);
      [specialize (IH best bv (S k)) | specialize (IH k a (S k))]; lia.
Qed.

Lemma argmax_from_spec (l pre : list float64) best bv :
  Forall (λ v, is_nan v = false) (pre ++ l) →
  pre !! best = Some bv →
  (∀ j v, pre !! j = Some v → fle v bv) →
  (∀ j v, pre !! j = Some v → (j < best)%nat → flt v bv) →
  ∃ m, (pre ++ l) !! argmax_from best bv (length pre) l = Some m ∧
    (∀ j v, (pre ++ l) !! j = Some v → fle v m) ∧
    (∀ j v, (pre ++ l) !! j = Some v →
       (j < argmax_from best bv (length pre) l)%nat → flt v m).
Proof.
  revert pre best bv. induction l as [|a l IH];
    intros pre best bv Hnan Hb Hle Hlt.
  - simpl. rewrite app_nil_r. eauto.
  - assert (is_nan bv = false) as Hbv.
    { rewrite Forall_lookup in Hnan. apply (Hnan best).
      by apply lookup_app_l_Some. }
    assert (is_nan a = false) as Ha.
    { rewrite Forall_lookup in Hnan. apply (Hnan (length pre)).
      rewrite lookup_app_r by lia. by rewrite Nat.sub_diag. }
    simpl. rewrite Hbv. rewrite (cons_middle a pre l), (assoc_L (++)).
    rewrite (cons_middle a pre l), (assoc_L (++)) in Hnan.
    replace (S (length pre)) with (length (pre ++ [a]))
      by (rewrite length_app; simpl; lia).
    destruct (fle a bv) eqn:Hcmp; apply IH; try done.
    + by apply lookup_app_l_Some.
    + intros j v [Hv|[_ Hv]]%lookup_app_Some; [by eapply Hle|].
      apply list_lookup_singleton_Some in Hv as [_ ->]. by rewrite Hcmp.
    + intros j v [Hv|[Hj _]]%lookup_app_Some Hjl; [by eapply Hlt|].
      apply lookup_lt_Some in Hb. lia.
    + rewrite lookup_app_r by lia. by rewrite Nat.sub_diag.
    + intros j v [Hv|[_ Hv]]%lookup_app_Some.
      * eapply fle_trans; [by eapply Hle|].
        apply fle_total; [done..|]. rewrite Hcmp. exact id.
      * apply list_lookup_singleton_Some in Hv as [_ ->]. by apply fle_refl.
    + intros j v [Hv|[Hj _]]%lookup_app_Some Hjl; [|lia].
      apply flt_spec. split.
      * eapply fle_trans; [by eapply Hle|].
        apply fle_total; [done..|]. rewrite Hcmp. exact id.
      * intros Hav. assert (fle a bv) as Habs
          by (eapply fle_trans; [exact Hav | by eapply Hle]).
        rewrite Hcmp in Habs. exact Habs.
Qed.

Lemma argmax_flat_spec (l : list float64) k :
  Forall (λ v, is_nan v = false) l →
  argmax_flat l = Some k →
  ∃ m, l !! k = Some m ∧
    (∀ j v, l !! j = Some v → fle v m) ∧
    (∀ j v, l !! j = Some v → (j < k)%nat → flt v m).
Proof.
  destruct l as [|a l]; [done|]. intros Hnan [= <-].
  apply (argmax_from_spec l [a] 0%nat a); [done..| |].
  - intros j v Hv. apply list_lookup_singleton_Some in Hv as [_ ->].
    apply fle_refl. by inversion Hnan.
  - intros j v _ Hj. lia.
Qed.

(** Reading a matrix row by row: entry [(i, j)] is at position
    [i * c + j]. *)
Lemma concat_lookup_rect {A} r c (x : list (list A)) i j :
  rect r c x → (j < c)%nat → concat x !! (i * c + j)%nat = mat_at x i j.
Proof.
  revert r i. induction x as [|row x IH]; intros r i [Hl Hr] Hj.
  - by destruct i.
  - inversion Hr as [|?? Hrow Hrows]; subst. destruct i as [|i]; simpl.
    + rewrite lookup_app_l by lia. done.
    + rewrite lookup_app_r by lia.
      replace (length row + i * length row + j - length row)%nat
        with (i * length row + j)%nat by lia.
      apply (IH (length x)); [by split | done].
Qed.

Lemma length_concat_rect {A} r c (x : list (list A)) :
  rect r c x → length (concat x) = (r * c)%nat.
Proof.
  intros [<- Hr]. induction Hr as [|row x Hrow _ IH]; [done|].
  simpl. rewrite length_app, IH, Hrow. lia.
Qed.

(** [array_argmax] returns a position of the array, whatever it holds. *)
Lemma array_argmax_in_range r c (x : fmatrix) :
  rect r c x → (0 < r)%nat → (0 < c)%nat →
  ∃ wr wc, array_argmax x = Ok (wr, wc) ∧ (wr < r)%nat ∧ (wc < c)%nat.
Proof.
  intros Hx Hr Hc. unfold array_argmax. rewrite (shape_rect _ _ _ Hx Hr).
  pose proof (length_concat_rect _ _ _ Hx) as Hlen.
  destruct (concat x) as [|v l]; [simpl in Hlen; lia|].
  pose proof (argmax_from_lt 0 v 1 l ltac:(lia)) as Hk.
  simpl in Hlen. cbn [argmax_flat or_raise mbind res_bind].
  eexists _, _. split; [reflexivity|]. split.
  - apply Nat.Div0.div_lt_upper_bound. lia.
  - apply Nat.mod_upper_bound. lia.
Qed.

Lemma array_argmax_first_maximum r c (x : fmatrix) wr wc :
  rect r c x → no_nan x → array_argmax x = Ok (wr, wc) →
  first_maximum x wr wc.
Proof.
  intros Hx Hnan H. unfold array_argmax in H.
  destruct (shape x) as [rows cols] eqn:Hsh.
  inv_bind H. apply or_raise_Ok in Ha.
  destruct (argmax_flat_spec _ _ (proj2 (Forall_concat _ _) Hnan) Ha)
    as (m & Hm & Hle & Hlt).
  injection H as <- <-.
  assert (0 < r)%nat as Hr.
  { destruct Hx as [<- _]. destruct x; [done | simpl; lia]. }
  rewrite (shape_rect _ _ _ Hx Hr) in Hsh. injection Hsh as <- <-.
  assert (0 < c)%nat as Hc.
  { destruct c; [|lia]. exfalso.
    pose proof (length_concat_rect _ _ _ Hx) as Hlen.
    apply lookup_lt_Some in Hm. lia. }
  pose proof (Nat.div_mod_eq a c) as Hdm.
  pose proof (Nat.mod_upper_bound a c ltac:(lia)) as Hmod.
  exists m. split; [|split].
  - rewrite <- (concat_lookup_rect r c) by done.
    by replace (a `div` c * c + a `mod` c)%nat with a by lia.
  - intros i j v Hv. destruct (mat_at_rect _ _ _ _ _ _ Hx Hv) as [_ Hj].
    rewrite <- (concat_lookup_rect r c) in Hv by done. eauto.
  - intros i j v Hv Hbefore.
    destruct (mat_at_rect _ _ _ _ _ _ Hx Hv) as [_ Hj].
    rewrite <- (concat_lookup_rect r c) in Hv by done.
    apply (Hlt _ _ Hv). nia.
Qed.

(** The position of the first maximum is unique. *)
Lemma first_maximum_unique (x : fmatrix) wr wc wr' wc' :
  first_maximum x wr wc → first_maximum x wr' wc' → (wr', wc') = (wr, wc).
Proof.
  intros (m & Hm & Hle & Hlt) (m' & Hm' & Hle' & Hlt').
  destruct (decide ((wr' < wr)%nat ∨ (wr' = wr ∧ (wc' < wc)%nat))) as [H|H].
  { pose proof (Hlt _ _ _ Hm' H) as [_ H1]%flt_spec.
    pose proof (Hle' _ _ _ Hm) as H2. done. }
  destruct (decide ((wr < wr')%nat ∨ (wr = wr' ∧ (wc < wc')%nat))) as [H'|H'].
  { pose proof (Hlt' _ _ _ Hm H') as [_ H1]%flt_spec.
    pose proof (Hle _ _ _ Hm') as H2. done. }
  f_equal; lia.
Qed.

(** *** The crop *)

Lemma mapM_imap_Some {A B} (f : nat → A → option B) (l : list A) k :
  mapM (λ '(i, a), f i a) (imap pair l) = Some k →
  length k = length l ∧
  ∀ i y, k !! i = Some y → ∃ a, l !! i = Some a ∧ f i a = Some y.
Proof.
  intros H%mapM_Some_1. split.
  - apply Forall2_length in H. by rewrite length_imap in H.
  - intros i y Hy.
    destruct (Forall2_lookup_r _ _ _ _ _ H Hy) as ([i' a] & Hia & Hf).
    rewrite list_lookup_imap in Hia.
    destruct (l !! i) as [a'|]; simpl in Hia; [|done].
    injection Hia as <- <-. eauto.
Qed.

Lemma slice_assign_outside r c (x kernel x' : fmatrix) reg :
  rect r c x → slice_assign x reg kernel = Ok x' →
  rect r c x' ∧
  ∀ i j v, mat_at x' i j = Some v → ¬ in_region reg i j →
    mat_at x i j = Some v.
Proof.
  intros [Hl Hr] H. unfold slice_assign in H.
  destruct reg as [[[rmin rmax] cmin] cmax].
  destruct (decide _) as [_|]; [|discriminate].
  apply or_raise_Ok in H.
  apply (mapM_imap_Some (λ i row, mapM (λ '(j, e),
    if decide (in_region (rmin, rmax, cmin, cmax) i j)
    then mat_at kernel (i - Z.to_nat rmin) (j - Z.to_nat cmin)
    else Some e) (imap pair row))) in H as [Hlen Hrows].
  split; [split; [lia|]|].
  - apply Forall_lookup. intros i row' Hrow'.
    destruct (Hrows _ _ Hrow') as (row & Hrow & Hm).
    apply (mapM_imap_Some (λ j e,
      if decide (in_region (rmin, rmax, cmin, cmax) i j)
      then mat_at kernel (i - Z.to_nat rmin) (j - Z.to_nat cmin)
      else Some e)) in Hm as [Hlen' _].
    rewrite Forall_lookup in Hr. rewrite Hlen'. eauto.
  - intros i j v (row' & Hrow' & Hv)%mat_at_Some Hout.
    destruct (Hrows _ _ Hrow') as (row & Hrow & Hm).
    apply (mapM_imap_Some (λ j e,
      if decide (in_region (rmin, rmax, cmin, cmax) i j)
      then mat_at kernel (i - Z.to_nat rmin) (j - Z.to_nat cmin)
      else Some e)) in Hm as [_ Hcells].
    destruct (Hcells _ _ Hv) as (e & He & Hcell).
    rewrite decide_False in Hcell by done. injection Hcell as ->.
    apply mat_at_Some. eauto.
Qed.


(** *** Clearing the array *)

Lemma fscale2_rect r c v (x : fmatrix) : rect r c x → rect r c (fscale2 v x).
Proof.
  intros [Hl Hr]. unfold fscale2. split; [by rewrite length_fmap|].
  apply Forall_fmap. eapply Forall_impl; [exact Hr|].
  intros row Hrow. simpl. by rewrite length_fmap.
Qed.

Lemma fscale2_at v (x : fmatrix) i j :
  mat_at (fscale2 v x) i j = (λ e, fmul e v) <$> mat_at x i j.
Proof.
  unfold fscale2, mat_at. rewrite list_lookup_fmap.
  destruct (x !! i) as [row|]; simpl; [|done]. apply list_lookup_fmap.
Qed.

(** [e * 0.0] is zero for a finite [e] and NaN for an infinity and for
    NaN. *)
Lemma fmul_zero e :
  fmul e (Finite 0) = if is_finite e then Finite 0 else NaN.
Proof.
  destruct e as [q|s|]; simpl; [|done..].
  f_equal. ring.
Qed.

(** C8, as the code has it: when KernelMax has been applied to a matrix,
    a value outside the crop region [rmin:rmax, cmin:cmax] is zero where
    the matrix held a finite value and NaN where it held an infinity or
    NaN, since the matrix is cleared by [x *= 0.0]. The region is the one
    around [(wr, wc)], the position [array_argmax] returns: for a matrix
    without NaN the maximum of the matrix as it was passed in, the first
    one in reading order among equal maxima, hence a position the input
    alone fixes. *)
Theorem kernel_max_zero_outside_crop p r c (x x' : fmatrix) :
  rect r c x →
  __call__ neighborhood_kernel_generator p x = Ok x' →
  ∃ wr wc,
    array_argmax x = Ok (wr, wc) ∧
    (no_nan x →
     first_maximum x wr wc ∧
     ∀ wr' wc', first_maximum x wr' wc' → (wr', wc') = (wr, wc)) ∧
    rect r c x' ∧
    ∀ i j v, mat_at x' i j = Some v →
      ¬ in_region
          (crop_region p (Z.of_nat r) (Z.of_nat c) (Z.of_nat wr) (Z.of_nat wc))
          i j →
      ∃ e, mat_at x i j = Some e ∧
        v = if is_finite e then Finite 0 else NaN.
Proof.
  intros Hx H. unfold __call__ in H.
  destruct (shape x) as [rows cols] eqn:Hsh.
  inv_bind H. destruct a as [wr wc].
  assert (0 < r)%nat as Hr.
  { destruct Hx as [<- _]. destruct x; [done | simpl; lia]. }
  rewrite (shape_rect _ _ _ Hx Hr) in Hsh. injection Hsh as <- <-.
  unfold crop_region in H. cbv zeta in H.
  apply (slice_assign_outside r c) in H as [Hx' Hout];
    [|by apply fscale2_rect].
  exists wr, wc. split; [done|]. split; [|split; [done|]].
  - intros Hnan.
    pose proof (array_argmax_first_maximum _ _ _ _ _ Hx Hnan Ha) as Hfirst.
    split; [done|]. intros wr' wc' H'. by eapply first_maximum_unique.
  - intros i j v Hv Hreg. apply Hout in Hv; [|exact Hreg].
    rewrite fscale2_at in Hv.
    destruct (mat_at x i j) as [e|]; [|done]. simpl in Hv.
    injection Hv as <-. exists e. split; [done|]. apply fmul_zero.
Qed.

End KernelMax_facts.

(** C2, as the spec has it, fails: with [kernel_radius = 0] (and the
    default multiplier 3 and density 1) the half-width is 1, not
    [ceil(1.25) = 2]. *)
Lemma crop_radius_not_ceiling :
  let p := KernelMax.mkParams 0 (Q2Qc 3) 1 in
  KernelMax.crop_radius p = 1%Z ∧
  Qceiling (this (KernelMax.py_max (Q2Qc (5 # 4))
                    (KernelMax.density p * KernelMax.kernel_radius p
                     * KernelMax.crop_radius_multiplier p))) = 2%Z ∧
  KernelMax.crop_radius p
  ≠ Qceiling (this (KernelMax.py_max (Q2Qc (5 # 4))
                      (KernelMax.density p * KernelMax.kernel_radius p
                       * KernelMax.crop_radius_multiplier p))).
Proof. vm_compute. repeat split; congruence. Qed.

(** ** HomeostaticResponse *)

Section HomeostaticResponse_facts.

Import HomeostaticResponse.

Variable uniform_random : Z → nat → nat → matrix.

Implicit Types (s : state) (x : matrix).

(** *** Arrays *)

Lemma mat_at_map {A B} (f : A → B) (a : list (list A)) i j :
  mat_at ((λ row : list A, f <$> row) <$> a) i j = f <$> mat_at a i j.
Proof.
  unfold mat_at. rewrite list_lookup_fmap.
  destruct (a !! i) as [row|]; simpl; [|done]. apply list_lookup_fmap.
Qed.




(** *** The stored activity *)

(** C4, as the code has it: after a call, [_x_prev] holds the activity
    matrix as the call leaves it, that is the result of the
    piecewise-linear threshold, not the matrix that was passed in. *)
Theorem x_prev_is_thresholded_activity now s x s' y :
  __call__ uniform_random now s x = Ok (s', y) →
  _x_prev s' = Some y ∧ _apply_threshold s' x = Ok y.
Proof.
  unfold __call__. intros H. inv_bind H. inv_bind H. inv_bind H. inv_bind H.
  match type of H with context [decide ?P] => destruct (decide P) end;
    [|discriminate].
  injection H as <- <-. split; [done|]. exact Ha1.
Qed.

(** *** The smoothed average and its copy *)

Lemma initialize_Ok s x s1 :
  _initialize uniform_random s x = Ok s1 →
  y_avg s1 = _y_avg_prev s1 ∧ par s1 = par s ∧ plastic s1 = plastic s ∧
  _next_update_timestamp s1 = _next_update_timestamp s ∧
  current_state_stack s1 = current_state_stack s.
Proof.
  unfold _initialize. destruct (shape x) as [d1 d2]. intros H. inv_bind H.
  by injection H as <-.
Qed.

Lemma scheduled_update_Ok s s1 :
  scheduled_update s = Ok s1 →
  y_avg s1 = _y_avg_prev s1 ∧ par s1 = par s ∧ plastic s1 = plastic s ∧
  first_call s1 = first_call s ∧ _x_prev s1 = _x_prev s ∧
  _next_update_timestamp s1 = _next_update_timestamp s + period (par s) ∧
  current_state_stack s1 = current_state_stack s ∧
  (plastic s = false → t s1 = t s ∧ y_avg s1 = _y_avg_prev s).
Proof.
  unfold scheduled_update. intros H. inv_bind H. inv_bind H. inv_bind H.
  inv_bind H. destruct a2 as [avg thr]. injection H as <-. simpl.
  do 7 (split; [done|]). intros Hp.
  unfold _update_threshold in Ha2. inv_bind Ha2. inv_bind Ha2.
  rewrite Hp in Ha2. injection Ha2 as <- <-.
  apply or_raise_Ok in Ha, Ha1. split; congruence.
Qed.

(** What [__call__] is made of. *)
Lemma call_Ok now s x s' y :
  __call__ uniform_random now s x = Ok (s', y) →
  ∃ s1 s2 x_prev,
    (if first_call s then
       ∃ s0, _initialize uniform_random s x = Ok s0 ∧
         s1 = mkState (par s0) (plastic s0) false (t s0) (y_avg s0)
                (_next_update_timestamp s0) (_y_avg_prev s0) (_x_prev s0)
                (current_state_stack s0)
     else s1 = s) ∧
    (if decide (_next_update_timestamp s1 < now)
     then scheduled_update s1 = Ok s2 else s2 = s1) ∧
    _apply_threshold s2 x = Ok y ∧ _x_prev s2 = Some x_prev ∧
    shape x_prev = shape y ∧
    s' = mkState (par s2) (plastic s2) (first_call s2) (t s2) (y_avg s2)
           (_next_update_timestamp s2) (_y_avg_prev s2) (Some y)
           (current_state_stack s2).
Proof.
  unfold __call__. intros H. inv_bind H. inv_bind H. inv_bind H. inv_bind H.
  match type of H with context [decide ?P] => destruct (decide P) end;
    [|discriminate].
  injection H as <- <-. apply or_raise_Ok in Ha2.
  exists a, a0, a2. repeat split; try done.
  - destruct (first_call s); [|by injection Ha as <-].
    inv_bind Ha. injection Ha as <-. eauto.
  - destruct (decide _); [done | by injection Ha0 as <-].
Qed.

Lemma call_averages_agree now s x s' y :
  y_avg s = _y_avg_prev s →
  __call__ uniform_random now s x = Ok (s', y) →
  y_avg s' = _y_avg_prev s' ∧ plastic s' = plastic s ∧ par s' = par s ∧
  first_call s' = false ∧ current_state_stack s' = current_state_stack s.
Proof.
  intros Hagree (s1 & s2 & xp & H1 & H2 & _ & _ & _ & ->)%call_Ok. simpl.
  assert (y_avg s1 = _y_avg_prev s1 ∧ plastic s1 = plastic s ∧
    par s1 = par s ∧ first_call s1 = false ∧
    current_state_stack s1 = current_state_stack s) as (A1 & A2 & A3 & A4 & A5).
  { destruct (first_call s) eqn:Hfc; [|by subst].
    destruct H1 as (s0 & (? & ? & ? & ? & ?)%initialize_Ok & ->). done. }
  destruct (decide _); [|by subst].
  apply scheduled_update_Ok in H2 as (? & ? & ? & ? & ? & ? & ? & _).
  repeat split; congruence.
Qed.

(** In every state an instance can be in, [y_avg] and [_y_avg_prev] agree. *)
Lemma reachable_averages_agree s : reachable uniform_random s → averages_agree s.
Proof.
  induction 1 as [now p b|now s x s' y _ [IH1 IH2] Hcall|s _ [IH1 IH2]
                 |s s' _ [IH1 IH2] Hpop|b s _ IH].
  - by split.
  - apply (call_averages_agree _ _ _ _ _ IH1) in Hcall as (? & _ & _ & _ & Hst).
    split; [done|]. by rewrite Hst.
  - split; [done|]. simpl. by constructor.
  - unfold state_pop in Hpop.
    destruct (current_state_stack s) as [|[[[[[??]?]?]?]?] k]; [done|].
    injection Hpop as <-. inversion IH2; subst. by split.
  - done.
Qed.

(** *** Calls without plasticity *)

Lemma call_not_plastic now s x s' y :
  plastic s = false → first_call s = false → y_avg s = _y_avg_prev s →
  __call__ uniform_random now s x = Ok (s', y) →
  t s' = t s ∧ y_avg s' = y_avg s.
Proof.
  intros Hp Hfc Hagree (s1 & s2 & xp & H1 & H2 & _ & _ & _ & ->)%call_Ok.
  simpl. rewrite Hfc in H1. subst s1.
  destruct (decide _); [|by subst].
  apply scheduled_update_Ok in H2 as (_ & _ & _ & _ & _ & _ & _ & H2).
  destruct (H2 Hp) as [-> ->]. done.
Qed.

Lemma run_not_plastic s calls results :
  plastic s = false → first_call s = false → y_avg s = _y_avg_prev s →
  run uniform_random s calls = Ok results →
  Forall (λ r : state * matrix, t r.1 = t s ∧ y_avg r.1 = y_avg s) results.
Proof.
  revert s results. induction calls as [|[now x] calls IH];
    intros s results Hp Hfc Hagree H; simpl in H.
  - injection H as <-. constructor.
  - inv_bind H. destruct a as [s1 y1]. inv_bind H. injection H as <-.
    pose proof (call_not_plastic _ _ _ _ _ Hp Hfc Hagree Ha) as [Ht Hy].
    apply (call_averages_agree _ _ _ _ _ Hagree) in Ha as (? & ? & _ & ? & _).
    constructor; [done|].
    eapply Forall_impl; [apply (IH s1); congruence|].
    intros r [? ?]. split; congruence.
Qed.

(** C7: while [plastic] is false, calls leave the threshold matrix [t]
    and the smoothed average [y_avg] as they are, whether or not the
    scheduled update is due: after any sequence of calls all the states
    passed through hold the same [t] and [y_avg], and these are the [t]
    and [y_avg] from before the calls when the instance had been called
    before. *)
Theorem not_plastic_keeps_threshold s calls results :
  reachable uniform_random s → plastic s = false →
  run uniform_random s calls = Ok results →
  (∀ n m r1 r2, results !! n = Some r1 → results !! m = Some r2 →
     t r1.1 = t r2.1 ∧ y_avg r1.1 = y_avg r2.1) ∧
  (first_call s = false →
   ∀ n r1, results !! n = Some r1 → t r1.1 = t s ∧ y_avg r1.1 = y_avg s).
Proof.
  intros [Hagree _]%reachable_averages_agree Hp Hrun.
  destruct (first_call s) eqn:Hfc.
  - split; [|done]. destruct calls as [|[now x] calls]; simpl in Hrun.
    { injection Hrun as <-. by intros n m r1 r2 Hn. }
    inv_bind Hrun as r1 Hcall. destruct r1 as [s1 y1].
    inv_bind Hrun as rest Hrest. injection Hrun as <-.
    apply (call_averages_agree _ _ _ _ _ Hagree) in Hcall as (? & ? & _ & ? & _).
    assert (Forall (λ r : state * matrix,
      t r.1 = t s1 ∧ y_avg r.1 = y_avg s1) ((s1, y1) :: rest)) as Hall.
    { constructor; [done|]. apply (run_not_plastic s1 calls); congruence. }
    rewrite Forall_lookup in Hall. intros n m r1 r2 Hn Hm.
    destruct (Hall _ _ Hn), (Hall _ _ Hm). split; congruence.
  - pose proof (run_not_plastic _ _ _ Hp Hfc Hagree Hrun) as Hall.
    rewrite Forall_lookup in Hall. split.
    + intros n m r1 r2 Hn Hm.
      destruct (Hall _ _ Hn), (Hall _ _ Hm). split; congruence.
    + intros _ n r1 Hn. by apply (Hall _ _ Hn).
Qed.

(** *** The scheduled update *)










(** *** From construction on *)




End HomeostaticResponse_facts.

(** ** AttributeTrackingTF *)

Section AttributeTrackingTF_facts.

Import AttributeTrackingTF.

Variable eval : string → res value.

Implicit Types (s : state) (x : matrix).

(** The two blocks that resolve [_object] and [_coordframe] leave the
    parameters, the counter and the log alone; [_coordframe] is resolved
    once. *)
Lemma resolve_object_Ok s sa :
  (if is_None (_object s) then
     match object s with
     | VStr e => o ← eval e; Ok (set_object o s)
     | o => Ok (set_object o s)
     end
   else Ok s) = Ok sa →
  same_tracking s sa ∧ _coordframe sa = _coordframe s ∧
  coordframe sa = coordframe s.
Proof.
  intros H. destruct (is_None (_object s)).
  - destruct (object s); try (injection H as <-; by repeat split).
    inv_bind H. injection H as <-. by repeat split.
  - injection H as <-. by repeat split.
Qed.

Lemma resolve_coordframe_Ok s sb :
  (if is_None (_coordframe s) then
     if is_str (coordframe s) && is_scs (_object s) then Raise ValueError
     else if is_scs (_object s) then Ok (set_coordframe (_object s) s)
     else match coordframe s with
          | VStr e => cf ← eval e; Ok (set_coordframe cf s)
          | _ => Raise ValueError
          end
   else Ok s) = Ok sb →
  same_tracking s sb ∧
  (is_None (_coordframe s) = false → _coordframe sb = _coordframe s).
Proof.
  intros H. destruct (is_None (_coordframe s)).
  - destruct (is_str (coordframe s) && is_scs (_object s)); [done|].
    destruct (is_scs (_object s)).
    { injection H as <-. by repeat split. }
    destruct (coordframe s); try done.
    inv_bind H. injection H as <-. by repeat split.
  - injection H as <-. by repeat split.
Qed.

(** A call that tracks the activity at the one unit [(0, 0)] on every
    step appends one pair to the log of that unit. *)
Lemma call_tracks_x now s x s' m l :
  attrib_names s = ["x"%string] → units s = [(0, 0)] → step s = 1%Z →
  plastic s = true → n_step s = 0%Z →
  values s !! "x"%string = Some m → m !! (0, 0) = Some l →
  __call__ eval now s x = Ok s' →
  ∃ cf v,
    _coordframe s' = VObj cf ∧
    (is_None (_coordframe s) = false → _coordframe s' = _coordframe s) ∧
    getitem x (sheet2matrixidx cf 0 0) = Ok v ∧
    values s' = <["x"%string := <[(0, 0) := l ++ [(now, v)]]> m]> (values s) ∧
    attrib_names s' = attrib_names s ∧ units s' = units s ∧
    step s' = step s ∧ plastic s' = plastic s ∧ n_step s' = 0%Z.
Proof.
  intros Hnames Hunits Hstep Hpl Hn Hm Hl H. unfold __call__ in H.
  inv_bind H as sa Hsa. inv_bind H as sb Hsb.
  apply resolve_object_Ok in Hsa as ((A1 & A2 & A3 & A4 & A5 & A6) & Acf & _).
  apply resolve_coordframe_Ok in Hsb as ((B1 & B2 & B3 & B4 & B5 & B6) & Bcf).
  cbn [n_step step set_n_step plastic values attrib_names] in H.
  rewrite B6, A6, Hn, B3, A3, Hstep, decide_True in H by done.
  rewrite B4, A4, Hpl, B1, A1, Hnames in H.
  inv_bind H as vals Hvals. injection H as <-.
  cbn [for_each] in Hvals. inv_bind Hvals as vals1 Htrack.
  injection Hvals as ->. unfold track_attrib in Htrack.
  rewrite decide_True in Htrack by done.
  cbn [mbind res_bind units set_n_step] in Htrack.
  rewrite B2, A2, Hunits in Htrack. cbn [for_each] in Htrack.
  inv_bind Htrack as vals2 Hunit. injection Htrack as ->.
  unfold track_unit in Hunit. cbn [_coordframe set_n_step] in Hunit.
  inv_bind Hunit as mat_u Hcf. inv_bind Hunit as v Hv.
  destruct (_coordframe sb) as [| |cf] eqn:Ecf; try done.
  injection Hcf as <-.
  unfold append_value in Hunit. rewrite B5, A5, Hm in Hunit.
  cbn [or_raise mbind res_bind] in Hunit. rewrite Hl in Hunit.
  cbn [or_raise mbind res_bind] in Hunit. injection Hunit as <-.
  exists cf, v. simpl. split; [done|]. split.
  { intros Hres. rewrite <- Acf in Hres. rewrite <- Acf, Ecf. auto. }
  repeat split; try done; congruence.
Qed.

(** C9: an instance built with [attrib_names = ["x"]],
    [units = [(0.0, 0.0)]], [step = 1] and [plastic] true, and called
    with [A1] at time [T1] and then [A2] at time [T2], has resolved one
    coordinate frame, and [values["x"][(0.0, 0.0)]] is the sequence
    [(T1, A1[idx]), (T2, A2[idx])] with [idx] the matrix index that frame
    gives for [(0.0, 0.0)]. *)
Theorem tracked_values_after_two_calls obj cframe T1 A1 T2 A2 s1 s2 :
  __call__ eval T1 (init obj ["x"%string] [(0, 0)] 1 cframe true) A1 = Ok s1 →
  __call__ eval T2 s1 A2 = Ok s2 →
  ∃ cf v1 v2,
    _coordframe s1 = VObj cf ∧ _coordframe s2 = VObj cf ∧
    getitem A1 (sheet2matrixidx cf 0 0) = Ok v1 ∧
    getitem A2 (sheet2matrixidx cf 0 0) = Ok v2 ∧
    (m ← values s2 !! "x"%string; m !! (0, 0)) = Some [(T1, v1); (T2, v2)].
Proof.
  intros H1 H2.
  apply (call_tracks_x _ _ _ _ {[ (0, 0) := [] ]} []) in H1
    as (cf & v1 & Hcf1 & _ & Hv1 & Hvals1 & N1 & U1 & S1 & P1 & C1);
    [|done..].
  apply (call_tracks_x _ _ _ _ (<[(0, 0) := [(T1, v1)]]> {[ (0, 0) := [] ]})
           [(T1, v1)]) in H2
    as (cf2 & v2 & Hcf2 & Hsame & Hv2 & Hvals2 & _);
    [|by rewrite N1|by rewrite U1|by rewrite S1|by rewrite P1|done
     |by rewrite Hvals1, lookup_insert_eq|by rewrite lookup_insert_eq].
  assert (cf2 = cf) as ->.
  { rewrite Hsame in Hcf2 by (by rewrite Hcf1). congruence. }
  exists cf, v1, v2. do 4 (split; [done|]).
  rewrite Hvals2, lookup_insert_eq. simpl. by rewrite lookup_insert_eq.
Qed.

End AttributeTrackingTF_facts.

(** ** Concrete runs *)

(** Decides a closed proposition by evaluation. *)
Ltac by_evaluation := apply (bool_decide_unpack _); vm_compute; exact I.

(** Four calls on a fresh scatter of depth 3 over a 2 by 2 sheet. *)
Lemma scatter_outputs_delayed_inputs_witness :
  ∃ h' s' ys dm,
    TemporalScatter.run Examples.latencies (∅, Examples.scatter0) Examples.inputs
    = Ok (h', s', ys) ∧
    length ys = length Examples.inputs ∧
    TemporalScatter.depth_map s' = Some dm ∧
    ∀ n y, ys !! n = Some y → (3 ≤ S n)%nat →
      ∀ i j, (i < 2)%nat → (j < 2)%nat →
        ∃ k x e, mat_at dm i j = Some k ∧ (k < 3)%nat ∧
          Examples.inputs !! (n - k)%nat = Some x ∧ mat_at x i j = Some e ∧
          mat_at y i j = Some e.
Proof.
  apply (scatter_outputs_delayed_inputs Examples.latencies ∅ Examples.scatter0
           2 2 3 Examples.inputs).
  - split; [lia|]. split; [eexists; reflexivity | reflexivity].
  - lia.
  - repeat constructor.
  - simpl. lia.
Defined.


(** The depth map of four latencies, two of them outside the span. *)
Lemma depth_map_entries_below_depth_witness :
  ∃ m s',
    TemporalScatter._compute_depth_map Examples.latencies Examples.scatter0
      (2%nat, 2%nat) = Ok (m, s') ∧
    ∃ d, TemporalScatter.depth
           (TemporalScatter.set_raw_depth_map
              (Some (Examples.latencies 2 2)) Examples.scatter0) = Ok (d, s') ∧
      ∀ i j k, mat_at m i j = Some k →
        (0 ≤ Z.of_nat k < d)%Z ∧
        ∀ v : list Qc, length v = Z.to_nat d → is_Some (v !! k).
Proof.
  eexists _, _. split; [vm_compute; reflexivity|].
  apply (depth_map_entries_below_depth Examples.latencies Examples.scatter0
           (2%nat, 2%nat)).
  reflexivity.
Defined.

(** KernelMax with its defaults on a 5 by 5 activity with four equal maxima. *)
Lemma kernel_max_zero_outside_crop_witness :
  ∃ x',
    KernelMax.__call__ Examples.sevens Examples.kernel_defaults Examples.activity
    = Ok x' ∧
    ∃ wr wc,
      KernelMax.array_argmax Examples.activity = Ok (wr, wc) ∧
      KernelMax.first_maximum Examples.activity wr wc ∧
      (∀ wr' wc', KernelMax.first_maximum Examples.activity wr' wc' →
         (wr', wc') = (wr, wc)) ∧
      rect 5 5 x' ∧
      ∀ i j v, mat_at x' i j = Some v →
        ¬ KernelMax.in_region
            (KernelMax.crop_region Examples.kernel_defaults (Z.of_nat 5)
               (Z.of_nat 5) (Z.of_nat wr) (Z.of_nat wc)) i j →
        ∃ e, mat_at Examples.activity i j = Some e ∧
          v = if is_finite e then Finite 0 else NaN.
Proof.
  edestruct (kernel_max_zero_outside_crop Examples.sevens
               Examples.kernel_defaults 5 5 Examples.activity)
    as (wr & wc & Harg & Hmax & Hrect & Hout).
  - split; [reflexivity | repeat constructor].
  - vm_compute; reflexivity.
  - eexists. split; [vm_compute; reflexivity|]. exists wr, wc.
    split; [exact Harg|].
    destruct Hmax as [Hfirst Hunique]; [repeat constructor|].
    split; [exact Hfirst|]. split; [exact Hunique|].
    split; [exact Hrect | exact Hout].
Defined.

(** C8, as the spec has it, fails: a row that holds minus infinity at its
    end, outside the crop region around the maximum at its start, holds
    NaN there after KernelMax, not zero. *)
Lemma kernel_max_nan_outside_crop :
  ∃ x',
    KernelMax.__call__ Examples.sevens Examples.kernel_defaults
      Examples.unbounded = Ok x' ∧
    KernelMax.array_argmax Examples.unbounded = Ok (0%nat, 0%nat) ∧
    ¬ KernelMax.in_region
        (KernelMax.crop_region Examples.kernel_defaults (Z.of_nat 1)
           (Z.of_nat 5) (Z.of_nat 0) (Z.of_nat 0)) 0 4 ∧
    mat_at x' 0 4 = Some NaN ∧ NaN ≠ Finite 0.
Proof.
  eexists. split; [vm_compute; reflexivity|].
  split; [vm_compute; reflexivity|]. split; [by_evaluation|].
  split; [vm_compute; reflexivity | discriminate].
Qed.

(** One call with the default parameters. *)
Lemma x_prev_is_thresholded_activity_witness :
  ∃ s' y,
    HomeostaticResponse.__call__ Examples.no_noise 1
      (HomeostaticResponse.init 0 (Examples.homeostatic (Examples.q 1 100) 1) true)
      Examples.one = Ok (s', y) ∧
    HomeostaticResponse._x_prev s' = Some y ∧
    HomeostaticResponse._apply_threshold s' Examples.one = Ok y.
Proof.
  eexists _, _. split; [vm_compute; reflexivity|].
  apply (x_prev_is_thresholded_activity Examples.no_noise 1
           (HomeostaticResponse.init 0 (Examples.homeostatic (Examples.q 1 100) 1) true)
           Examples.one).
  reflexivity.
Defined.

(** C4, as the spec has it, fails: with the default parameters a call with
    the activity [[1]] leaves [17/20] in [_x_prev], the activity after the
    threshold 0.15 was taken off, not the activity that was passed in. *)
Lemma x_prev_not_pre_threshold :
  ∃ s' y,
    HomeostaticResponse.__call__ Examples.no_noise 1
      (HomeostaticResponse.init 0 (Examples.homeostatic (Examples.q 1 100) 1) true)
      Examples.one = Ok (s', y) ∧
    HomeostaticResponse._x_prev s' = Some [[Examples.q 17 20]] ∧
    HomeostaticResponse._x_prev s' ≠ Some Examples.one.
Proof.
  eexists _, _. split; [vm_compute; reflexivity|]. split; by_evaluation.
Qed.



(** Two calls past the update time on an instance that is not plastic. *)
Lemma not_plastic_keeps_threshold_witness :
  ∃ results,
    HomeostaticResponse.run Examples.no_noise
      (HomeostaticResponse.init 0 (Examples.homeostatic (Examples.q 1 100) 1) false)
      [(Examples.q 2 1, Examples.one); (Examples.q 4 1, [[Examples.q 0 1]])]
    = Ok results ∧
    (∀ n m r1 r2, results !! n = Some r1 → results !! m = Some r2 →
       HomeostaticResponse.t r1.1 = HomeostaticResponse.t r2.1 ∧
       HomeostaticResponse.y_avg r1.1 = HomeostaticResponse.y_avg r2.1) ∧
    (HomeostaticResponse.first_call
       (HomeostaticResponse.init 0 (Examples.homeostatic (Examples.q 1 100) 1) false)
     = false →
     ∀ n r1, results !! n = Some r1 →
       HomeostaticResponse.t r1.1
       = HomeostaticResponse.t
           (HomeostaticResponse.init 0 (Examples.homeostatic (Examples.q 1 100) 1) false) ∧
       HomeostaticResponse.y_avg r1.1
       = HomeostaticResponse.y_avg
           (HomeostaticResponse.init 0 (Examples.homeostatic (Examples.q 1 100) 1) false)).
Proof.
  eexists. split; [vm_compute; reflexivity|].
  apply (not_plastic_keeps_threshold Examples.no_noise
           (HomeostaticResponse.init 0 (Examples.homeostatic (Examples.q 1 100) 1) false)
           [(Examples.q 2 1, Examples.one); (Examples.q 4 1, [[Examples.q 0 1]])]).
  - constructor.
  - reflexivity.
  - reflexivity.
Defined.

(** Two calls that track the activity of a sheet at [(0.0, 0.0)]. *)
Lemma tracked_values_after_two_calls_witness :
  ∃ s1 s2,
    AttributeTrackingTF.__call__ Examples.no_eval (Examples.q 1 2)
      (AttributeTrackingTF.init (AttributeTrackingTF.VObj Examples.sheet)
         ["x"%string] [(0, 0)] 1 AttributeTrackingTF.VNone true)
      [[Examples.q 1 1]; [Examples.q 2 1]] = Ok s1 ∧
    AttributeTrackingTF.__call__ Examples.no_eval (Examples.q 3 2) s1
      [[Examples.q 3 1]; [Examples.q 4 1]] = Ok s2 ∧
    ∃ cf v1 v2,
      AttributeTrackingTF._coordframe s1 = AttributeTrackingTF.VObj cf ∧
      AttributeTrackingTF._coordframe s2 = AttributeTrackingTF.VObj cf ∧
      AttributeTrackingTF.getitem [[Examples.q 1 1]; [Examples.q 2 1]]
        (AttributeTrackingTF.sheet2matrixidx cf 0 0) = Ok v1 ∧
      AttributeTrackingTF.getitem [[Examples.q 3 1]; [Examples.q 4 1]]
        (AttributeTrackingTF.sheet2matrixidx cf 0 0) = Ok v2 ∧
      (m ← AttributeTrackingTF.values s2 !! "x"%string; m !! (0, 0))
      = Some [(Examples.q 1 2, v1); (Examples.q 3 2, v2)].
Proof.
  eexists _, _. split; [vm_compute; reflexivity|].
  split; [vm_compute; reflexivity|].
  eapply (tracked_values_after_two_calls Examples.no_eval
            (AttributeTrackingTF.VObj Examples.sheet) AttributeTrackingTF.VNone);
    vm_compute; reflexivity.
Defined.

(** * Further properties *)

(** ** TemporalScatter: the depth and the depth map *)

Section TemporalScatter_depth_map.

Import TemporalScatter.

Context {base_state : Type}.
Variable distribution : nat → nat → matrix.

Implicit Types (s : @state base_state) (h : heap).

(** [depth] checks [span] against [timestep] on the first access only: the
    depth it returns is never 0, it is the exact quotient when no depth
    had been stored, and every later access returns it again, whatever
    [timestep] and [span] have been set to since. *)
Theorem depth_is_validated_once s d s' :
  depth s = Ok (d, s') →
  d ≠ 0%Z ∧
  (_depth s = None → span s = (d * timestep s)%Z) ∧
  ∀ ts sp, depth (set_params ts sp s') = Ok (d, set_params ts sp s').
Proof.
  intros H. pose proof (depth_nonzero _ _ _ H) as Hnz.
  pose proof (depth_stores _ _ _ H) as (Hc & _).
  split; [done|]. split.
  - intros Hnone. unfold depth in H. rewrite Hnone in H.
    by apply compute_depth_Ok in H as (_ & _ & _ & ? & _).
  - intros ts sp. by apply depth_cached.
Qed.

Lemma chunks_lookup {A} d1 d2 (l : list A) i j a :
  mat_at (chunks d1 d2 l) i j = Some a →
  (j < d2)%nat ∧ l !! (i * d2 + j)%nat = Some a.
Proof.
  revert l i. induction d1 as [|d1 IH]; intros l i H.
  - apply mat_at_Some in H as (row & Hrow & _). done.
  - destruct i as [|i]; simpl in H.
    + apply lookup_take_Some in H as [H Hj]. done.
    + apply IH in H as [Hj H]. split; [done|].
      rewrite lookup_drop in H. by replace (S i * d2 + j)%nat
        with (d2 + (i * d2 + j))%nat by lia.
Qed.

Lemma Qc_of_nat_le (k m : nat) : (k ≤ m)%nat → Qc_of_nat k ≤ Qc_of_nat m.
Proof. intros H. unfold Qc_of_nat. rewrite <- Z2Qc_inj_le. lia. Qed.

Lemma linspace_head lo hi d bins :
  (0 < d)%Z → linspace lo hi d = Ok bins → ∃ rest, bins = lo :: rest.
Proof.
  intros Hd. unfold linspace. rewrite decide_False by lia. intros [= <-].
  destruct (Z.to_nat d) as [|n] eqn:Hn; [lia|]. cbn [seq fmap list_fmap].
  eexists. f_equal. change (Qc_of_nat 0) with (Qc_of_Z 0).
  rewrite Z2Qc_inj_0. ring.
Qed.

Lemma linspace_le_stop lo hi d bins :
  lo ≤ hi → linspace lo hi d = Ok bins → Forall (λ b, b ≤ hi) bins.
Proof.
  intros Hle. unfold linspace. destruct (decide _); [done|]. intros [= <-].
  apply Forall_fmap, Forall_forall. intros k [_ Hk]%elem_of_seq. simpl.
  set (m := (Z.to_nat d - 1)%nat).
  assert (0 ≤ hi - lo) as Hdelta.
  { apply (Qcplus_le_mono_r _ _ lo). by ring_simplify. }
  destruct (decide (m = 0%nat)) as [Hm|Hm].
  - assert (k = 0%nat) as -> by lia. change (Qc_of_nat 0) with (Qc_of_Z 0).
    rewrite Z2Qc_inj_0. by ring_simplify.
  - assert (0 < Qc_of_nat m) as Hpos.
    { unfold Qc_of_nat. rewrite <- Z2Qc_inj_0, <- Z2Qc_inj_lt. lia. }
    assert (0 ≤ (hi - lo) / Qc_of_nat m) as Hstep.
    { apply Qcmult_nonneg_nonneg; [done|]. by apply Qclt_le_weak, Qcinv_pos. }
    assert (Qc_of_nat k * ((hi - lo) / Qc_of_nat m) ≤ hi - lo) as Hk'.
    { rewrite <- (Qcmult_div_r (hi - lo) (Qc_of_nat m)) at 2
        by (by apply not_symmetry, Qclt_not_eq).
      apply Qcmult_le_mono_nonneg_r; [done|]. apply Qc_of_nat_le. lia. }
    apply (Qcplus_le_mono_l _ _ lo) in Hk'. by ring_simplify in Hk'.
Qed.

Lemma digitize1_all bins v :
  Forall (λ b, b ≤ v) bins → digitize1 bins v = length bins.
Proof.
  induction 1 as [|b bins Hb _ IH]; simpl; [done|].
  by rewrite decide_True, IH.
Qed.

Lemma digitize1_mono bins v v' :
  v ≤ v' → (digitize1 bins v ≤ digitize1 bins v')%nat.
Proof.
  intros Hv. induction bins as [|b bins IH]; simpl; [done|].
  destruct (decide (b ≤ v)) as [Hb|Hb]; [|lia].
  rewrite decide_True by exact (Qcle_trans _ _ _ Hb Hv). lia.
Qed.

Lemma pull_back_mono n k k' :
  (k ≤ k')%nat → (k' ≤ n)%nat → (pull_back n k ≤ pull_back n k')%nat.
Proof. intros ??. unfold pull_back. repeat destruct (decide _); lia. Qed.

(** Every entry of the depth map is the bin of one sample: the sample at
    the position of the unit in reading order. *)
Lemma compute_depth_map_entries s d1 d2 m s' lo hi :
  _compute_depth_map distribution s (d1, d2) = Ok (m, s') →
  limits s = (lo, hi) →
  ∃ d bins,
    depth (set_raw_depth_map (Some (distribution d1 d2)) s) = Ok (d, s') ∧
    linspace lo hi d = Ok bins ∧ (0 < d)%Z ∧ length bins = Z.to_nat d ∧
    ∀ i j k, mat_at m i j = Some k →
      ∃ v, concat (distribution d1 d2) !! (i * d2 + j)%nat = Some v ∧
        k = pull_back (length bins) (digitize1 bins v).
Proof.
  unfold _compute_depth_map. intros H Hlim. rewrite Hlim in H.
  inv_bind H as ds Hdepth. destruct ds as [d s1].
  inv_bind H as bins Hbins. inv_bind H as m0 Hm. injection H as <- <-.
  pose proof (depth_nonzero _ _ _ Hdepth).
  pose proof (linspace_Ok _ _ _ _ Hbins) as [? Hlen].
  exists d, bins. do 2 (split; [done|]). split; [lia|]. split; [done|].
  unfold reshape2 in Hm. destruct (decide _); [|done]. injection Hm as <-.
  intros i j k [_ Hk]%chunks_lookup. unfold digitize in Hk.
  rewrite !list_lookup_fmap in Hk.
  destruct (concat (distribution d1 d2) !! (i * d2 + j)%nat) as [v|]; [|done].
  injection Hk as <-. eauto.
Qed.

(** A latency below the lower limit falls in bin 0, a latency at or above
    the upper limit in the last bin [depth - 1]; with a depth of two or
    more, bin 0 holds nothing else than the latencies below the lower
    limit. *)
Theorem depth_map_lumps_outliers s d1 d2 m s' lo hi :
  _compute_depth_map distribution s (d1, d2) = Ok (m, s') →
  limits s = (lo, hi) → lo ≤ hi →
  ∃ d,
    depth (set_raw_depth_map (Some (distribution d1 d2)) s) = Ok (d, s') ∧
    ∀ i j k, mat_at m i j = Some k →
      ∃ v, concat (distribution d1 d2) !! (i * d2 + j)%nat = Some v ∧
        (v < lo → k = 0%nat) ∧
        (hi ≤ v → Z.of_nat k = (d - 1)%Z) ∧
        ((2 ≤ d)%Z → k = 0%nat → v < lo).
Proof.
  intros H Hlim Hle.
  destruct (compute_depth_map_entries _ _ _ _ _ _ _ H Hlim)
    as (d & bins & Hdepth & Hbins & Hd & Hlen & Hentries).
  exists d. split; [done|]. intros i j k Hk.
  destruct (Hentries _ _ _ Hk) as (v & Hv & ->). exists v. split; [done|].
  destruct (linspace_head _ _ _ _ Hd Hbins) as [rest ->].
  pose proof (linspace_le_stop _ _ _ _ Hle Hbins) as Hstop.
  repeat split.
  - intros Hlt. simpl. rewrite decide_False by (by apply Qclt_not_le).
    unfold pull_back. by rewrite decide_False.
  - intros Hhi. rewrite digitize1_all.
    + unfold pull_back. rewrite decide_True by done. lia.
    + eapply Forall_impl; [exact Hstop|]. intros b Hb.
      exact (Qcle_trans _ _ _ Hb Hhi).
  - intros Hd2. simpl. simpl in Hlen.
    destruct (decide (lo ≤ v)) as [Hlo|Hlo]; [|intros _; by apply Qcnot_le_lt].
    unfold pull_back. destruct (decide _); lia.
Qed.

(** The bins keep the order of the latencies: of two units, the one with
    the larger sample never gets the smaller delay bin. *)
Theorem depth_map_monotone s d1 d2 m s' i j k i' j' k' v v' :
  _compute_depth_map distribution s (d1, d2) = Ok (m, s') →
  mat_at m i j = Some k → mat_at m i' j' = Some k' →
  concat (distribution d1 d2) !! (i * d2 + j)%nat = Some v →
  concat (distribution d1 d2) !! (i' * d2 + j')%nat = Some v' →
  v ≤ v' → (k ≤ k')%nat.
Proof.
  intros H Hk Hk' Hv Hv' Hle.
  destruct (limits s) as [lo hi] eqn:Hlim.
  destruct (compute_depth_map_entries _ _ _ _ _ _ _ H Hlim)
    as (d & bins & _ & _ & _ & _ & Hentries).
  destruct (Hentries _ _ _ Hk) as (w & Hw & ->).
  destruct (Hentries _ _ _ Hk') as (w' & Hw' & ->).
  assert (w = v) as -> by congruence. assert (w' = v') as -> by congruence.
  apply pull_back_mono; [by apply digitize1_mono | apply digitize1_le].
Qed.

End TemporalScatter_depth_map.

(** ** TemporalScatter: calls, checkpoints and views *)

Section TemporalScatter_calls.

Import TemporalScatter.

Context {base_state : Type}.
Variable super_state_push : base_state → base_state.
Variable super_state_pop : base_state → base_state.
Variable distribution : nat → nat → matrix.

Implicit Types (s : @state base_state) (h : heap).

Lemma mat_at_zeros3 d1 d2 d i j :
  (i < d1)%nat → (j < d2)%nat →
  mat_at (zeros3 d1 d2 d) i j = Some (replicate d 0).
Proof.
  intros Hi Hj. unfold zeros3, mat_at.
  rewrite lookup_replicate_2 by done. simpl. by rewrite lookup_replicate_2.
Qed.

(** The first call passes the input on at the units with delay bin 0 and
    writes 0 at every other unit: nothing older is in the buffer. *)
Theorem first_call_outputs_undelayed h s d1 d2 d (x : matrix) :
  ready distribution h s d1 d2 d → first_call s = true →
  (0 < d1)%nat → rect d1 d2 x →
  ∃ h' s' y dm,
    __call__ distribution (h, s) x = Ok (h', s', y) ∧
    first_call s' = false ∧ depth_map s' = Some dm ∧
    ∀ i j, (i < d1)%nat → (j < d2)%nat →
      ∃ k, mat_at dm i j = Some k ∧
        mat_at y i j = if decide (k = 0%nat) then mat_at x i j else Some 0.
Proof.
  intros Hready Hfc Hd1 Hx.
  destruct (first_call_init_ready _ _ _ _ _ _ Hready Hfc) as
    (h1 & s1 & dm & Hinit & Hfc1 & Hbuf1 & Hdm1 & Hdmr & Hlt).
  destruct Hready as [Hd _].
  rewrite (first_call_unfold _ h s h1 s1 d1 d2 x Hfc (shape_rect _ _ _ Hx Hd1)
             Hinit Hfc1).
  destruct (call_initialized distribution h1 s1 d1 d2 d x (zeros3 d1 d2 d) dm)
    as (h' & s' & y & b' & Hcall & Hfc' & Hdm' & _ & _ & _ & Hb' & Hy);
    [done | done | apply zeros3_rect3 | done..|].
  exists h', s', y, dm. do 3 (split; [done|]). intros i j Hi Hj.
  destruct (rect_mat_at _ _ _ _ _ Hdmr Hi Hj) as [k Hk].
  destruct (rect_mat_at _ _ _ _ _ Hx Hi Hj) as [e He].
  exists k. split; [done|].
  rewrite (Hy _ _ _ _ Hk (Hb' _ _ _ _ He (mat_at_zeros3 _ _ _ _ _ Hi Hj))).
  pose proof (Hlt _ _ _ Hk). destruct k as [|k]; simpl; [done|].
  rewrite lookup_take_lt by lia. apply lookup_replicate_2. lia.
Qed.

(** *** The store under calls *)

Lemma depth_frame s d s' :
  depth s = Ok (d, s') →
  current_state_stack s' = current_state_stack s ∧ base s' = base s.
Proof.
  unfold depth. intros H.
  assert (compute_depth s = Ok (d, s') →
    current_state_stack s' = current_state_stack s ∧ base s' = base s) as Hc.
  { intros (_ & _ & _ & _ & ->)%compute_depth_Ok. done. }
  destruct (_depth s) as [c|]; [|auto].
  destruct (decide (c ≠ 0%Z)); [|auto]. by injection H as <- <-.
Qed.

(** A call leaves every array that is in the store where it is, and does
    not touch the state stack: it writes to arrays it has allocated only. *)
Lemma call_frame h s (x : matrix) h' s' y :
  __call__ distribution (h, s) x = Ok (h', s', y) →
  (∀ l b, h !! l = Some b → h' !! l = Some b) ∧
  current_state_stack s' = current_state_stack s.
Proof.
  unfold __call__. destruct (shape x) as [d1 d2]. intros H.
  inv_bind H as hs1 Hfirst. destruct hs1 as [h1 s1].
  assert ((∀ l b, h !! l = Some b → h1 !! l = Some b) ∧
    current_state_stack s1 = current_state_stack s) as [Hh1 Hs1].
  { destruct (first_call s); [|by injection Hfirst as <- <-].
    unfold first_call_init in Hfirst. inv_bind Hfirst as ds Hdepth.
    destruct ds as [d s0]. destruct (decide _); [done|].
    cbn [alloc] in Hfirst. inv_bind Hfirst as ms Hmap. destruct ms as [dm s2].
    injection Hfirst as <- <-.
    apply compute_depth_map_Ok in Hmap as (d' & Hd' & _).
    apply depth_frame in Hdepth as [Hst _]. apply depth_frame in Hd' as [Hst' _].
    split; [|simpl; by rewrite Hst', <- Hst].
    intros l b Hl. rewrite lookup_insert_ne; [done|].
    intros <-. pose proof (is_fresh (dom h)) as Hfresh.
    apply not_elem_of_dom in Hfresh. congruence. }
  inv_bind H as b Hb. cbn [alloc] in H. inv_bind H as b' Hb'.
  inv_bind H as dm Hdm. inv_bind H as g Hg. inv_bind H as y' Hy.
  injection H as <- <- <-. split; [|done].
  intros l b0 Hl. apply Hh1 in Hl.
  assert (fresh (dom h1) ≠ l) as Hne.
  { intros <-. pose proof (is_fresh (dom h1)) as Hfresh.
    apply not_elem_of_dom in Hfresh. congruence. }
  by rewrite !lookup_insert_ne.
Qed.

Lemma run_frame (xs : list matrix) h s h' s' ys :
  run distribution (h, s) xs = Ok (h', s', ys) →
  (∀ l b, h !! l = Some b → h' !! l = Some b) ∧
  current_state_stack s' = current_state_stack s.
Proof.
  revert h s ys. induction xs as [|x xs IH]; intros h s ys H; simpl in H.
  - by injection H as <- <- <-.
  - inv_bind H as r1 Hcall. destruct r1 as [[h1 s1] y1].
    inv_bind H as r2 Hrun. destruct r2 as [[h2 s2] ys2].
    injection H as <- <- <-.
    apply call_frame in Hcall as [Hh1 Hs1]. apply IH in Hrun as [Hh2 Hs2].
    split; [auto | congruence].
Qed.

(** What [state_push] does to a state whose buffer reference is live. *)
Lemma state_push_Ok h s :
  (∀ l, _buffer s = Some l → is_Some (h !! l)) →
  ∃ h1 s1 saved,
    state_push super_state_push (h, s) = Ok (h1, s1) ∧
    current_state_stack s1 = (saved, first_call s) :: current_state_stack s ∧
    (l ← saved; h1 !! l) = buffer_of h s ∧
    (∀ l, saved = Some l → is_Some (h1 !! l)) ∧
    buffer_of h1 s1 = scale3 0 <$> buffer_of h s ∧
    first_call s1 = first_call s ∧ depth_map s1 = depth_map s.
Proof.
  intros Hlive. unfold state_push, buffer_of.
  destruct (_buffer s) as [l|] eqn:Hbuf; simpl.
  - destruct (Hlive l eq_refl) as [b Hb]. rewrite Hb. simpl.
    destruct (alloc_fresh h b _ _ eq_refl) as [Hfree _].
    set (l' := fresh (dom h)) in *.
    assert (l' ≠ l) as Hne by congruence.
    rewrite Hbuf. simpl. rewrite lookup_insert_ne by done. rewrite Hb. simpl.
    eexists _, _, (Some l'). split; [reflexivity|]. simpl.
    rewrite Hbuf. simpl. assert (l ≠ l') as Hne' by congruence.
    rewrite (lookup_insert_ne _ l l') by done. rewrite !lookup_insert_eq.
    do 2 (split; [done|]). split; [|done]. intros ? [= <-].
    rewrite (lookup_insert_ne _ l l') by done. by rewrite lookup_insert_eq.
  - rewrite Hbuf. eexists _, _, None. split; [reflexivity|]. simpl.
    by rewrite Hbuf.
Qed.

(** A checkpoint holds across calls: after [state_push], any calls that
    return, and [state_pop], the contents of the buffer, the first-call
    flag and the state stack are those from before the push, since the
    calls in between write to arrays of their own. *)
Theorem state_pop_restores_after_calls h s h1 s1 (xs : list matrix) h2 s2 ys :
  (∀ l, _buffer s = Some l → is_Some (h !! l)) →
  state_push super_state_push (h, s) = Ok (h1, s1) →
  run distribution (h1, s1) xs = Ok (h2, s2, ys) →
  ∃ h3 s3,
    state_pop super_state_pop (h2, s2) = Ok (h3, s3) ∧
    buffer_of h3 s3 = buffer_of h s ∧
    first_call s3 = first_call s ∧
    current_state_stack s3 = current_state_stack s.
Proof.
  intros Hlive Hpush Hrun.
  destruct (state_push_Ok h s Hlive) as
    (h1' & s1' & saved & Hpush' & Hstack & Hsaved & Hin & _).
  rewrite Hpush in Hpush'. injection Hpush' as <- <-.
  apply run_frame in Hrun as [Hheap Hstack2].
  unfold state_pop. rewrite Hstack2, Hstack.
  eexists _, _. split; [reflexivity|]. simpl. split; [|done].
  unfold buffer_of at 1. simpl. rewrite <- Hsaved.
  destruct saved as [l|]; simpl; [|done].
  destruct (Hin l eq_refl) as [b Hl]. rewrite Hl. by apply Hheap.
Qed.

(** *** Views of the depth map *)

Context {view image : Type}.
Variable raw_hist : option matrix → res view.
Variable discrete_image : list (list Z) → res image.
Variable discrete_hist : image → Z → Z → res view.
Variable layout : view → view → res view.

(** [view_depth_map] raises an [IndexError] for every mode other than
    'raw', 'discrete' and 'both' (no view is built and [views[0]] is
    read), and a [TypeError] in mode 'discrete' before the first call,
    when there is no depth map to scale. *)
Theorem view_depth_map_raises s mode :
  (mode ∉ ["raw"; "discrete"; "both"]%string →
   view_depth_map raw_hist discrete_image discrete_hist layout s mode
   = Raise IndexError) ∧
  (depth_map s = None →
   view_depth_map raw_hist discrete_image discrete_hist layout s "discrete"
   = Raise TypeError).
Proof.
  split.
  - intros Hmode. rewrite !not_elem_of_cons in Hmode.
    destruct Hmode as (Hraw & Hdiscrete & Hboth & _). unfold view_depth_map.
    rewrite decide_False by (rewrite !not_elem_of_cons; auto using not_elem_of_nil).
    cbn [mbind res_bind].
    by rewrite decide_False
      by (rewrite !not_elem_of_cons; auto using not_elem_of_nil).
  - intros Hnone. unfold view_depth_map.
    rewrite decide_False
      by (rewrite !not_elem_of_cons; repeat split; done || apply not_elem_of_nil).
    cbn [mbind res_bind].
    rewrite decide_True by (apply elem_of_cons; by left).
    unfold scaled_map. by rewrite Hnone.
Qed.

End TemporalScatter_calls.

(** ** KernelMax: the crop region and the kernel *)

Section KernelMax_crop.

Import KernelMax.

Variable neighborhood_kernel_generator :
  (Z * Z) * (Z * Z) → Qc → Qc → Qc → fmatrix.

Lemma crop_radius_pos p : (1 ≤ crop_radius p)%Z.
Proof.
  unfold crop_radius. rewrite py_int_floor.
  - change 1%Z with (Qfloor (this (Q2Qc (5 # 4)))).
    apply Qfloor_resp_le, (py_max_ge (Q2Qc (5 # 4))).
  - etrans; [|apply py_max_ge]. done.
Qed.

(** The crop region is the square of half-width [crop_radius] around the
    winner, cut off at the edges of the matrix; it always holds the
    winner itself. *)
Theorem crop_region_is_clipped_square p (r c wr wc : nat) :
  (∀ i j,
     in_region
       (crop_region p (Z.of_nat r) (Z.of_nat c) (Z.of_nat wr) (Z.of_nat wc)) i j
     ↔ (i < r)%nat ∧ (j < c)%nat ∧
       (Z.abs (Z.of_nat i - Z.of_nat wr) ≤ crop_radius p)%Z ∧
       (Z.abs (Z.of_nat j - Z.of_nat wc) ≤ crop_radius p)%Z) ∧
  ((wr < r)%nat → (wc < c)%nat →
   in_region
     (crop_region p (Z.of_nat r) (Z.of_nat c) (Z.of_nat wr) (Z.of_nat wc))
     wr wc).
Proof.
  pose proof (crop_radius_pos p). unfold crop_region, in_region.
  split; [intros i j|]; lia.
Qed.

Lemma mapM_imap_is_Some {A B} (f : nat → A → option B) (l : list A) :
  (∀ i a, l !! i = Some a → is_Some (f i a)) →
  is_Some (mapM (λ '(i, a), f i a) (imap pair l)).
Proof.
  intros H. apply mapM_is_Some_2, Forall_lookup. intros i [i' a] Hia.
  rewrite list_lookup_imap in Hia.
  destruct (l !! i) as [a'|] eqn:Hl; simpl in Hia; [|done].
  injection Hia as <- <-. simpl. eauto.
Qed.

(** With a kernel generator that fills its bounding box, KernelMax
    succeeds on every matrix that has an entry: the box it asks for,
    flipped vertically around the winner, is as high and as wide as the
    slice [rmin:rmax, cmin:cmax], and inside that slice the matrix holds
    the kernel on return. *)
Theorem kernel_max_writes_kernel p r c (x : fmatrix) :
  fills_bounds neighborhood_kernel_generator →
  rect r c x → (0 < r)%nat → (0 < c)%nat →
  ∃ x' wr wc,
    __call__ neighborhood_kernel_generator p x = Ok x' ∧
    array_argmax x = Ok (wr, wc) ∧
    let rows := Z.of_nat r in
    let wy := (rows - Z.of_nat wr - 1)%Z in
    let '(rmin, rmax, cmin, cmax) :=
      crop_region p rows (Z.of_nat c) (Z.of_nat wr) (Z.of_nat wc) in
    let kernel :=
      neighborhood_kernel_generator
        ((cmin, Z.max (wy - crop_radius p) 0),
         (cmax, Z.min (wy + crop_radius p + 1) rows))
        (Qc_of_Z 2 * radius p)
        (Qc_of_Z (Z.of_nat wc) + Q2Qc (1 # 2)) (Qc_of_Z wy + Q2Qc (1 # 2)) in
    ∀ i j, in_region (rmin, rmax, cmin, cmax) i j →
      is_Some (mat_at x' i j) ∧
      mat_at x' i j = mat_at kernel (i - Z.to_nat rmin) (j - Z.to_nat cmin).
Proof.
  intros Hgen Hx Hr Hc.
  destruct (array_argmax_in_range r c x Hx Hr Hc) as (wr & wc & Harg & Hwr & Hwc).
  pose proof (crop_radius_pos p) as Hcr.
  unfold __call__. rewrite (shape_rect _ _ _ Hx Hr), Harg.
  cbn [mbind res_bind]. unfold crop_region. cbv beta iota zeta.
  set (rows := Z.of_nat r). set (cols := Z.of_nat c).
  set (wy := (rows - Z.of_nat wr - 1)%Z).
  set (rmin := Z.max (Z.of_nat wr - crop_radius p) 0).
  set (rmax := Z.min (Z.of_nat wr + crop_radius p + 1) rows).
  set (cmin := Z.max (Z.of_nat wc - crop_radius p) 0).
  set (cmax := Z.min (Z.of_nat wc + crop_radius p + 1) cols).
  set (ymin := Z.max (wy - crop_radius p) 0).
  set (ymax := Z.min (wy + crop_radius p + 1) rows).
  set (kernel := neighborhood_kernel_generator _ _ _ _).
  assert ((ymax - ymin = rmax - rmin)%Z ∧ (0 < rmax - rmin)%Z ∧
          (0 < cmax - cmin)%Z) as (Hflip & Hrpos & Hcpos)
    by (subst rows cols wy rmin rmax cmin cmax ymin ymax; lia).
  assert (rect (Z.to_nat (rmax - rmin)) (Z.to_nat (cmax - cmin)) kernel) as Hk.
  { rewrite <- Hflip. apply Hgen. }
  unfold slice_assign.
  rewrite (shape_rect _ _ _ Hk) by lia. rewrite decide_True by done.
  set (cell i (j : nat) (e : float64) :=
    if decide (in_region (rmin, rmax, cmin, cmax) i j)
    then mat_at kernel (i - Z.to_nat rmin) (j - Z.to_nat cmin)
    else Some e).
  set (rowf i (row : list float64) :=
    mapM (λ '(j, e), cell i j e) (imap pair row)).
  destruct (mapM_imap_is_Some rowf (fscale2 (Finite 0) x)) as [x' Hx'].
  { intros i row _. apply mapM_imap_is_Some. intros j e _. unfold cell.
    destruct (decide _) as [[Hi Hj]|]; [|done].
    apply (rect_mat_at _ _ _ _ _ Hk); lia. }
  exists x', wr, wc. split; [|split; [done|]].
  { change (or_raise ValueError
      (mapM (λ '(i, row), rowf i row) (imap pair (fscale2 (Finite 0) x)))
      = Ok x').
    by rewrite Hx'. }
  apply mapM_imap_Some in Hx' as [Hlen Hrows].
  intros i j Hin. pose proof Hin as [Hi Hj].
  destruct (lookup_lt_is_Some_2 x' i) as [row' Hrow'].
  { rewrite Hlen. unfold fscale2. rewrite length_fmap.
    destruct Hx as [-> _]. subst rmax rows. lia. }
  destruct (Hrows _ _ Hrow') as (row & Hrow & Hm).
  unfold rowf in Hm. apply mapM_imap_Some in Hm as [Hlen' Hcells].
  assert (length row = c) as Hrowlen.
  { destruct (fscale2_rect r c (Finite 0) x Hx) as [_ Hall].
    rewrite Forall_lookup in Hall. eauto. }
  destruct (lookup_lt_is_Some_2 row' j) as [v Hv].
  { rewrite Hlen', Hrowlen. subst cmax cols. lia. }
  destruct (Hcells _ _ Hv) as (e & _ & Hcell). unfold cell in Hcell.
  rewrite decide_True in Hcell by done.
  assert (mat_at x' i j = Some v) as Hat by (apply mat_at_Some; eauto).
  rewrite Hat. split; [by eexists|]. symmetry. exact Hcell.
Qed.

End KernelMax_crop.

(** ** HomeostaticResponse: checkpoints, the schedule and the average *)

Section HomeostaticResponse_more.

Import HomeostaticResponse.

Variable uniform_random : Z → nat → nat → matrix.

Implicit Types (s : state) (x : matrix).

Lemma map2_Ok f (a b m : matrix) :
  map2 f a b = Ok m → m = zip_with (zip_with f) a b.
Proof. unfold map2. destruct (decide _); [|discriminate]. by intros [= <-]. Qed.

(** A call changes neither the parameters nor the state stack. *)
Lemma call_keeps_configuration now s x s' y :
  __call__ uniform_random now s x = Ok (s', y) →
  par s' = par s ∧ plastic s' = plastic s ∧
  current_state_stack s' = current_state_stack s.
Proof.
  intros (s1 & s2 & xp & H1 & H2 & _ & _ & _ & ->)%call_Ok. simpl.
  assert (par s1 = par s ∧ plastic s1 = plastic s ∧
    current_state_stack s1 = current_state_stack s) as (A1 & A2 & A3).
  { destruct (first_call s); [|by subst].
    destruct H1 as (s0 & (? & ? & ? & ? & ?)%initialize_Ok & ->). done. }
  destruct (decide _); [|by subst].
  apply scheduled_update_Ok in H2 as (_ & ? & ? & _ & _ & _ & ? & _).
  repeat split; congruence.
Qed.

Lemma run_keeps_configuration s calls results :
  run uniform_random s calls = Ok results →
  Forall (λ r : state * matrix,
    par r.1 = par s ∧ plastic r.1 = plastic s ∧
    current_state_stack r.1 = current_state_stack s) results.
Proof.
  revert s results. induction calls as [|[now x] calls IH];
    intros s results H; simpl in H.
  - injection H as <-. constructor.
  - inv_bind H as r1 Hcall. destruct r1 as [s1 y1].
    inv_bind H as rest Hrest. injection H as <-.
    apply call_keeps_configuration in Hcall as (? & ? & ?).
    constructor; [done|].
    eapply Forall_impl; [by apply IH|]. intros r (? & ? & ?).
    repeat split; congruence.
Qed.

(** A checkpoint holds across calls: [state_pop] right after
    [state_push], or after any calls made since, gives back the very
    state that was pushed. *)
Theorem state_pop_undoes_calls s calls results :
  run uniform_random (state_push s) calls = Ok results →
  state_pop (state_push s) = Ok s ∧
  ∀ n r, results !! n = Some r → state_pop r.1 = Ok s.
Proof.
  intros Hrun. split; [by destruct s|].
  apply run_keeps_configuration in Hrun. rewrite Forall_lookup in Hrun.
  intros n r Hr. destruct (Hrun _ _ Hr) as (Hpar & Hpl & Hst).
  unfold state_pop. rewrite Hst. simpl. rewrite Hpar, Hpl. by destruct s.
Qed.

(** The threshold is updated only by a call that comes after the
    timestamp: such a call moves the timestamp on by one period, however
    late it is and whether or not the instance is plastic, and makes
    [_y_avg_prev] the current average; a call at or before the timestamp
    leaves the threshold, the averages and the timestamp alone. *)
Theorem update_waits_for_timestamp now s x s' y :
  first_call s = false →
  __call__ uniform_random now s x = Ok (s', y) →
  if decide (_next_update_timestamp s < now)
  then _next_update_timestamp s' = _next_update_timestamp s + period (par s) ∧
       _y_avg_prev s' = y_avg s'
  else t s' = t s ∧ y_avg s' = y_avg s ∧ _y_avg_prev s' = _y_avg_prev s ∧
       _next_update_timestamp s' = _next_update_timestamp s.
Proof.
  intros Hfc (s1 & s2 & xp & H1 & H2 & _ & _ & _ & ->)%call_Ok. simpl.
  rewrite Hfc in H1. subst s1. destruct (decide _); [|by subst].
  apply scheduled_update_Ok in H2 as (? & _ & _ & _ & _ & ? & _). done.
Qed.



End HomeostaticResponse_more.

(** ** HalfRectify *)

Section HalfRectify_facts.

Import HalfRectify.

Variable uniform_random : nat → nat → matrix.

Implicit Types (s : state) (x : matrix).

Lemma half_rectify_call_Ok s x s' y :
  __call__ uniform_random s x = Ok (s', y) →
  ∃ tm,
    t s' = Some tm ∧ first_call s' = false ∧
    t_init s' = t_init s ∧ gain s' = gain s ∧
    (first_call s = false → s' = s) ∧
    (first_call s = true →
       if randomized_init s
       then map2 Qcplus (full2 (shape x).1 (shape x).2 (t_init s))
              (scale2 (Qc_of_Z 2)
                 (scale2 (noise_magnitude s)
                    (HomeostaticResponse.ssub
                       (uniform_random (shape x).1 (shape x).2)
                       (Q2Qc (1 # 2))))) = Ok tm
       else tm = full2 (shape x).1 (shape x).2 (t_init s)) ∧
    y = scale2 (gain s)
          (HomeostaticResponse.clip_lower (zip_with (zip_with Qcminus) x tm) 0).
Proof.
  unfold __call__. intros H. inv_bind H as s1 Hs1. inv_bind H as tm Htm.
  inv_bind H as d Hd. injection H as <- <-.
  apply or_raise_Ok in Htm. apply map2_Ok in Hd as ->. exists tm.
  destruct (first_call s) eqn:Hfc.
  - destruct (shape x) as [d1 d2]. inv_bind Hs1 as t1 Ht1.
    injection Hs1 as <-. simpl in *. injection Htm as ->.
    repeat split; try done. intros _. destruct (randomized_init s); [done|].
    by injection Ht1.
  - injection Hs1 as <-. repeat split; try done.
Qed.

(** The threshold is fixed by the first call: every later call returns
    the instance exactly as the first call left it, with its threshold
    set. *)
Theorem threshold_is_set_once s xs results :
  run uniform_random s xs = Ok results →
  ∀ n r, results !! n = Some r →
    is_Some (t r.1) ∧ first_call r.1 = false ∧
    (first_call s = false → r.1 = s) ∧
    ∃ r0, results !! 0%nat = Some r0 ∧ r.1 = r0.1.
Proof.
  assert (∀ xs s results, first_call s = false →
    run uniform_random s xs = Ok results →
    Forall (λ r : state * matrix, r.1 = s) results) as Hfixed.
  { clear. induction xs as [|x xs IH]; intros s results Hfc H; simpl in H.
    - injection H as <-. constructor.
    - inv_bind H as r1 Hcall. destruct r1 as [s1 y1].
      inv_bind H as rest Hrest. injection H as <-.
      apply half_rectify_call_Ok in Hcall as (tm & _ & _ & _ & _ & Hs & _).
      specialize (Hs Hfc) as ->. constructor; [done|]. by apply IH. }
  destruct xs as [|x xs]; simpl; intros H.
  { injection H as <-. intros n r Hr. by rewrite lookup_nil in Hr. }
  inv_bind H as r1 Hcall. destruct r1 as [s1 y1].
  inv_bind H as rest Hrest. injection H as <-.
  apply half_rectify_call_Ok in Hcall
    as (tm & Htm & Hfc1 & _ & _ & Hs & _).
  apply Hfixed in Hrest; [|done]. rewrite Forall_lookup in Hrest.
  intros [|n] r Hr; simpl in Hr.
  - injection Hr as <-. simpl. repeat split; eauto.
  - apply Hrest in Hr as ->. repeat split; eauto.
Qed.

(** What a call returns, with [clip_lower] as modelled: an entry is zero
    where the input does not exceed the threshold and the excess times
    the gain where it does, so with a gain that is not negative no entry
    of the output is negative. *)
Theorem half_rectify_output s x s' y :
  __call__ uniform_random s x = Ok (s', y) →
  ∃ tm, t s' = Some tm ∧
    ∀ i j v, mat_at y i j = Some v →
      ∃ e th, mat_at x i j = Some e ∧ mat_at tm i j = Some th ∧
        (e ≤ th → v = 0) ∧ (th < e → v = (e - th) * gain s) ∧
        (0 ≤ gain s → 0 ≤ v).
Proof.
  intros (tm & Htm & _ & _ & _ & _ & _ & ->)%half_rectify_call_Ok.
  exists tm. split; [done|]. intros i j v Hv.
  unfold scale2, scale1, HomeostaticResponse.clip_lower in Hv.
  rewrite !mat_at_map, mat_at_zip_with in Hv.
  destruct (mat_at x i j) as [e|]; [|done].
  destruct (mat_at tm i j) as [th|]; [|done].
  simpl in Hv. injection Hv as <-. exists e, th. do 2 (split; [done|]).
  destruct (decide (e - th < 0)) as [Hneg|Hpos].
  - assert (e < th) as Hlt.
    { apply (Qcplus_lt_mono_r _ _ (- th)). by ring_simplify (th + - th). }
    split; [intros _; ring|]. split.
    + intros Hgt. destruct (Qclt_not_le _ _ Hlt). by apply Qclt_le_weak.
    + intros _. ring_simplify (0 * gain s). apply Qcle_refl.
  - apply Qcnot_lt_le in Hpos. split; [|split; [done|]].
    + intros Hle. assert (e - th ≤ 0) as Hle'.
      { apply (Qcplus_le_mono_r _ _ th). by ring_simplify. }
      rewrite (Qcle_antisym _ _ Hle' Hpos). ring.
    + intros Hg. replace 0 with ((e - th) * 0) by ring.
      by apply Qcmult_le_mono_nonneg_l.
Qed.


End HalfRectify_facts.

(** ** PatternCombine *)

Section PatternCombine_facts.

Import PatternCombine.

Variable generator : (Z * Z) * (Z * Z) → fmatrix.
Variable operator : float64 → float64 → float64.

Lemma omap_lookup_total {A B} (f : A → option B) (l : list A) j :
  Forall (λ a, is_Some (f a)) l → omap f l !! j = l !! j ≫= f.
Proof.
  intros H. revert j. induction H as [|a l [b Hb] _ IH]; intros j; [done|].
  simpl. rewrite Hb. destruct j as [|j]; simpl; [by rewrite Hb|]. apply IH.
Qed.

Lemma mat_at_transpose {A} r c (m : list (list A)) i j :
  rect r c m → (0 < r)%nat →
  mat_at (transpose m) i j = mat_at m j i.
Proof.
  intros Hm Hr. unfold transpose. rewrite (shape_rect _ _ _ Hm Hr). simpl.
  destruct Hm as [Hl Hrows]. unfold mat_at at 1. rewrite list_lookup_fmap.
  destruct (decide (i < c)%nat) as [Hi|Hi].
  - rewrite lookup_seq_lt by done. simpl.
    rewrite omap_lookup_total; [done|].
    eapply Forall_impl; [exact Hrows|]. intros row Hrow. simpl in *.
    apply lookup_lt_is_Some. by rewrite Hrow.
  - rewrite lookup_seq_ge by lia. simpl. unfold mat_at.
    destruct (m !! j) as [row|] eqn:Hrow; simpl; [|done].
    rewrite Forall_lookup in Hrows. specialize (Hrows _ _ Hrow).
    symmetry. apply lookup_ge_None. lia.
Qed.

Lemma rect_transpose {A} r c (m : list (list A)) :
  rect r c m → (0 < r)%nat → rect c r (transpose m).
Proof.
  intros Hm Hr. unfold transpose. rewrite (shape_rect _ _ _ Hm Hr). simpl.
  destruct Hm as [Hl Hrows]. split; [by rewrite length_fmap, length_seq|].
  apply Forall_fmap, Forall_forall. intros i Hi%elem_of_seq. simpl.
  rewrite <- Hl. clear Hl Hr. induction Hrows as [|row m Hrow _ IH]; [done|].
  simpl in *. destruct (lookup_lt_is_Some_2 row i) as [a ->]; [lia|].
  simpl. f_equal. exact IH.
Qed.

Lemma fmap2_rect f r c (a b : fmatrix) :
  rect r c a → rect r c b → (0 < r)%nat →
  fmap2 f a b = Ok (zip_with (zip_with f) a b).
Proof.
  intros Ha Hb Hr. unfold fmap2.
  by rewrite (shape_rect _ _ _ Ha Hr), (shape_rect _ _ _ Hb Hr), decide_True.
Qed.

(** Adding [v] to a cleared entry gives [v], unless the entry was not
    finite and is NaN. *)
Lemma fadd_cleared e v :
  fadd (fmul e (Finite 0)) v = if is_finite e then v else NaN.
Proof.
  rewrite fmul_zero. destruct e as [q|s|], v as [u|s'|]; simpl; try done.
  f_equal. ring.
Qed.

(** With a generator that returns, for the bounding box of the input, an
    array of the transposed shape, the call succeeds and overwrites an
    entry of [x] that is finite with the operator applied to that entry
    and the entry of the generated pattern at the mirrored position; an
    entry that is infinite or NaN is left as NaN, since [x] is cleared
    by [x *= 0.0] before the new pattern is added. *)
Theorem pattern_combine_applies_operator (r c : nat) (x : fmatrix) :
  rect r c x → (0 < r)%nat → (0 < c)%nat →
  rect c r (generator ((0, 0)%Z, (Z.of_nat r, Z.of_nat c))) →
  ∃ y,
    __call__ generator operator x = Ok y ∧ rect r c y ∧
    ∀ i j e g,
      mat_at x i j = Some e →
      mat_at (generator ((0, 0)%Z, (Z.of_nat r, Z.of_nat c))) j i = Some g →
      mat_at y i j = Some (if is_finite e then operator e g else NaN).
Proof.
  intros Hx Hr Hc Hg. unfold __call__. rewrite (shape_rect _ _ _ Hx Hr).
  set (G := generator _) in *.
  pose proof (rect_transpose _ _ _ Hg Hc) as Ht.
  rewrite (fmap2_rect _ _ _ _ _ Hx Ht Hr). cbn [mbind res_bind].
  pose proof (rect_zip_with operator _ _ _ _ Hx Ht) as Hn.
  rewrite (fmap2_rect _ _ _ _ _ (fscale2_rect _ _ (Finite 0) _ Hx) Hn Hr).
  eexists. split; [done|]. split.
  { apply rect_zip_with; [by apply fscale2_rect|done]. }
  intros i j e g He Hgji.
  rewrite !mat_at_zip_with, fscale2_at.
  rewrite (mat_at_transpose _ _ _ _ _ Hg Hc), He, Hgji. simpl.
  f_equal. apply fadd_cleared.
Qed.

End PatternCombine_facts.

(** ** AttributeTrackingTF: the counter and the log *)

Section AttributeTrackingTF_log.

Import AttributeTrackingTF.

Variable eval : string → res value.

Implicit Types (s : state) (x : matrix).
Implicit Types (vals : gmap string (gmap (Qc * Qc) (list (Qc * Qc)))).

(** The object the first block of [__call__] leaves in [_object]. *)
Lemma resolve_object_value s sa :
  (if is_None (_object s) then
     match object s with
     | VStr e => o ← eval e; Ok (set_object o s)
     | o => Ok (set_object o s)
     end
   else Ok s) = Ok sa →
  (if is_None (_object s) then
     match object s with VStr e => eval e | o => Ok o end
   else Ok (_object s)) = Ok (_object sa).
Proof.
  intros H. destruct (is_None (_object s)).
  - destruct (object s); try (by injection H as <-).
    inv_bind H as o Ho. injection H as <-. done.
  - by injection H as <-.
Qed.

(** The first call needs exactly one source for the coordinate frame:
    with [_coordframe] unset, it raises [ValueError] when [coordframe] is
    a string and the object is itself a coordinate frame, and also when
    neither is the case, for instance when [coordframe] is given as an
    object rather than as a string. *)
Theorem coordframe_needs_one_source now s x ob :
  (if is_None (_object s) then
     match object s with VStr e => eval e | o => Ok o end
   else Ok (_object s)) = Ok ob →
  _coordframe s = VNone →
  is_str (coordframe s) = is_scs ob →
  __call__ eval now s x = Raise ValueError.
Proof.
  intros Hob Hcf Hsame. unfold __call__.
  destruct (if is_None (_object s) then _ else _) as [sa|e] eqn:Hsa in |- *.
  - pose proof (resolve_object_value _ _ Hsa) as Hob'.
    rewrite Hob in Hob'. injection Hob' as ->.
    apply resolve_object_Ok in Hsa as (_ & Acf & Aco).
    cbn [mbind res_bind]. rewrite Acf, Hcf, Aco, Hsame. simpl.
    destruct (is_scs (_object sa)) eqn:Hscs; simpl; [done|].
    by destruct (coordframe s).
  - exfalso. destruct (is_None (_object s)); [|done].
    destruct (object s) as [|e'|o]; try done.
    rewrite Hob in Hsa. done.
Qed.

Lemma attribute_call_Ok now s x s' :
  __call__ eval now s x = Ok s' →
  attrib_names s' = attrib_names s ∧ units s' = units s ∧
  step s' = step s ∧ plastic s' = plastic s ∧
  n_step s' = (if decide (n_step s + 1 = step s)%Z then 0 else n_step s + 1)%Z ∧
  if decide ((n_step s + 1)%Z = step s ∧ plastic s = true)
  then ∃ sb, units sb = units s ∧
         for_each (track_attrib now sb x) (values s) (attrib_names s)
         = Ok (values s')
  else values s' = values s.
Proof.
  intros H. unfold __call__ in H.
  inv_bind H as sa Hsa. inv_bind H as sb Hsb.
  apply resolve_object_Ok in Hsa as ((A1 & A2 & A3 & A4 & A5 & A6) & _).
  apply resolve_coordframe_Ok in Hsb as ((B1 & B2 & B3 & B4 & B5 & B6) & _).
  cbn [n_step step set_n_step plastic values attrib_names] in H.
  rewrite B6, A6, B3, A3, B4, A4, B5, A5, B1, A1 in H.
  destruct (decide (n_step s + 1 = step s)%Z) as [Hdue|Hnot].
  - destruct (plastic s) eqn:Hp.
    + inv_bind H as vals Hvals. injection H as <-. simpl.
      rewrite decide_True by done.
      repeat split; try congruence.
      eexists (set_n_step 0 (set_n_step (n_step sb + 1) sb)).
      split; [simpl; congruence|exact Hvals].
    + injection H as <-. simpl. rewrite decide_False by (by intros [_ ?]).
      repeat split; congruence.
  - injection H as <-. simpl. rewrite decide_False by (by intros [? _]).
    repeat split; congruence.
Qed.

Lemma append_value_at vals p u e vals' q w :
  append_value vals p u e = Ok vals' →
  values_at vals' q w
  = if decide (q = p ∧ w = u) then (λ l, l ++ [e]) <$> values_at vals q w
    else values_at vals q w.
Proof.
  unfold append_value, values_at. intros H.
  inv_bind H as m Hm. inv_bind H as l Hl. injection H as <-.
  apply or_raise_Ok in Hm. apply or_raise_Ok in Hl.
  destruct (decide (q = p)) as [->|Hq].
  - rewrite lookup_insert_eq, Hm. simpl.
    destruct (decide (w = u)) as [->|Hw].
    + rewrite lookup_insert_eq, Hl, decide_True by done. done.
    + rewrite lookup_insert_ne by done.
      by rewrite decide_False by (intros [_ ?]; done).
  - rewrite lookup_insert_ne by done.
    by rewrite decide_False by (intros [? _]; done).
Qed.

Lemma track_units_at now cf vm p us : ∀ vals vals' q w l,
  for_each (track_unit now cf vm p) vals us = Ok vals' →
  values_at vals q w = Some l →
  ∃ l', values_at vals' q w = Some (l ++ l') ∧
    Forall (λ e : Qc * Qc, e.1 = now) l' ∧
    length l' = if decide (q = p) then occurrences w us else 0%nat.
Proof.
  induction us as [|u us IH]; intros vals vals' q w l H Hl; simpl in H.
  - injection H as <-. exists []. rewrite app_nil_r.
    split; [done|]. split; [constructor|]. by destruct (decide _).
  - inv_bind H as vals1 H1. unfold track_unit in H1.
    inv_bind H1 as mat_u Hmat. inv_bind H1 as v Hv.
    pose proof (append_value_at _ _ _ _ _ q w H1) as Hat. rewrite Hl in Hat.
    unfold occurrences. rewrite filter_cons.
    destruct (decide (q = p ∧ w = u)) as [[-> ->]|Hne].
    + destruct (IH _ _ _ _ _ H Hat) as (l' & Hl' & Hnow & Hlen).
      exists ((now, v) :: l'). rewrite <- app_assoc in Hl'.
      split; [done|]. split; [by constructor|].
      rewrite !decide_True in * by done. simpl. by rewrite Hlen.
    + destruct (IH _ _ _ _ _ H Hat) as (l' & Hl' & Hnow & Hlen).
      exists l'. do 2 (split; [done|]). rewrite Hlen.
      destruct (decide (q = p)) as [->|]; [|done].
      rewrite (decide_False (P := w = u)) by naive_solver. done.
Qed.

Lemma track_attribs_at now sb x names : ∀ vals vals' q w l,
  for_each (track_attrib now sb x) vals names = Ok vals' →
  values_at vals q w = Some l →
  ∃ l', values_at vals' q w = Some (l ++ l') ∧
    Forall (λ e : Qc * Qc, e.1 = now) l' ∧
    length l' = (occurrences q names * occurrences w (units sb))%nat.
Proof.
  induction names as [|p names IH]; intros vals vals' q w l H Hl; simpl in H.
  - injection H as <-. exists []. rewrite app_nil_r.
    split; [done|]. split; [constructor|done].
  - inv_bind H as vals1 H1. unfold track_attrib in H1.
    inv_bind H1 as vm Hvm.
    destruct (track_units_at _ _ _ _ _ _ _ q w l H1 Hl)
      as (l1 & Hl1 & Hnow1 & Hlen1).
    destruct (IH _ _ _ _ _ H Hl1) as (l2 & Hl2 & Hnow2 & Hlen2).
    exists (l1 ++ l2). rewrite app_assoc. split; [done|].
    split; [by apply Forall_app|].
    rewrite length_app, Hlen1, Hlen2.
    change (occurrences q (p :: names))
      with (length (filter (q =.) (p :: names))).
    rewrite filter_cons. by destruct (decide (q = p)).
Qed.

(** The log only grows, and by whole rounds: a call keeps what
    [values[p][u]] held and appends to it pairs stamped with the time of
    the call, none unless this is the call that completes a step on a
    plastic instance, and then one for each time [p] is listed in
    [attrib_names] times each time [u] is listed in [units]. *)
Theorem call_appends_to_log now s x s' p u l :
  __call__ eval now s x = Ok s' →
  values_at (values s) p u = Some l →
  ∃ l',
    values_at (values s') p u = Some (l ++ l') ∧
    Forall (λ e : Qc * Qc, e.1 = now) l' ∧
    length l' =
      if decide ((n_step s + 1)%Z = step s ∧ plastic s = true)
      then (occurrences p (attrib_names s) * occurrences u (units s))%nat
      else 0%nat.
Proof.
  intros (_ & _ & _ & _ & _ & H)%attribute_call_Ok Hl.
  destruct (decide _) as [Hdue|Hnot].
  - destruct H as (sb & Hunits & H).
    destruct (track_attribs_at _ _ _ _ _ _ p u l H Hl) as (l' & ? & ? & Hlen).
    exists l'. rewrite Hunits in Hlen. done.
  - exists []. rewrite H, app_nil_r. split; [done|]. split; [constructor|done].
Qed.

(** Over any number of calls the counter counts modulo [step]: with a
    step of at least one and a counter below it, the counter after the
    calls is the number of calls made so far modulo [step], and on a
    plastic instance the log of [p] and [u] has grown by one round of
    entries for each completed step. *)
Theorem log_grows_once_per_step s calls s' p u l :
  (1 ≤ step s)%Z → (0 ≤ n_step s < step s)%Z →
  run eval s calls = Ok s' →
  values_at (values s) p u = Some l →
  n_step s' = ((n_step s + Z.of_nat (length calls)) mod step s)%Z ∧
  ∃ l',
    values_at (values s') p u = Some (l ++ l') ∧
    length l' =
      if plastic s
      then (Z.to_nat ((n_step s + Z.of_nat (length calls)) / step s)
            * (occurrences p (attrib_names s) * occurrences u (units s)))%nat
      else 0%nat.
Proof.
  revert s l. induction calls as [|[now x] calls IH]; intros s l Hk Hn H Hl.
  - simpl in H. injection H as <-. simpl. rewrite Z.add_0_r.
    rewrite Z.mod_small, Z.div_small by lia. split; [done|].
    exists []. rewrite app_nil_r. split; [done|]. by destruct (plastic s).
  - simpl in H. inv_bind H as s1 Hcall.
    apply attribute_call_Ok in Hcall as (N1 & U1 & S1 & P1 & C1 & V1).
    assert (∃ l1, values_at (values s1) p u = Some (l ++ l1) ∧
      length l1 =
        if decide ((n_step s + 1)%Z = step s ∧ plastic s = true)
        then (occurrences p (attrib_names s) * occurrences u (units s))%nat
        else 0%nat) as (l1 & Hl1 & Hlen1).
    { revert V1.
      destruct (decide ((n_step s + 1)%Z = step s ∧ plastic s = true))
        as [Hdue|Hnot]; intros V1.
      - destruct V1 as (sb & Hunits & V1).
        destruct (track_attribs_at _ _ _ _ _ _ p u l V1 Hl)
          as (l1 & ? & _ & Hlen).
        exists l1. rewrite Hunits in Hlen. done.
      - exists []. by rewrite V1, app_nil_r. }
    assert (0 ≤ n_step s1 < step s1)%Z as Hn1.
    { rewrite C1, S1. destruct (decide _); lia. }
    destruct (IH s1 (l ++ l1) ltac:(lia) Hn1 H Hl1) as (Hc & l2 & Hl2 & Hlen2).
    rewrite S1, N1, U1, P1 in *. cbn [length]. rewrite Nat2Z.inj_succ.
    set (m := Z.of_nat (length calls)) in *.
    assert (0 ≤ m)%Z as Hm by lia.
    destruct (decide (n_step s + 1 = step s)%Z) as [Hdue|Hnot].
    + assert (n_step s + Z.succ m = 1 * step s + m)%Z as -> by lia.
      rewrite C1 in Hc, Hlen2. rewrite Z.add_0_l in Hc, Hlen2.
      split; [by rewrite Z.add_comm, Z_mod_plus_full|].
      exists (l1 ++ l2). rewrite app_assoc. split; [done|].
      rewrite length_app, Hlen1, Hlen2.
      destruct (plastic s) eqn:Hp;
        [|by rewrite decide_False by (intros [_ ?]; done)].
      rewrite decide_True by done.
      rewrite Z.div_add_l by lia.
      rewrite Z2Nat.inj_add by (try apply Z.div_pos; lia).
      change (Z.to_nat 1) with 1%nat. lia.
    + rewrite C1 in Hc, Hlen2.
      assert (n_step s + Z.succ m = n_step s + 1 + m)%Z as -> by lia.
      split; [done|].
      exists (l1 ++ l2). rewrite app_assoc. split; [done|].
      rewrite length_app, Hlen1, Hlen2.
      rewrite decide_False by (intros [? _]; done). done.
Qed.

(** A step that the counter has already reached is never completed: with
    [step <= n_step], which holds from the start for a step of zero or
    less, no call records anything, and the counter keeps growing. *)
Theorem unreachable_step_never_records s calls s' :
  (step s ≤ n_step s)%Z →
  run eval s calls = Ok s' →
  values s' = values s ∧
  n_step s' = (n_step s + Z.of_nat (length calls))%Z.
Proof.
  revert s. induction calls as [|[now x] calls IH]; intros s Hk H.
  - simpl in H. injection H as <-. simpl. split; [done|lia].
  - simpl in H. inv_bind H as s1 Hcall.
    apply attribute_call_Ok in Hcall as (_ & _ & S1 & _ & C1 & V1).
    rewrite decide_False in C1 by lia.
    rewrite decide_False in V1 by lia.
    destruct (IH s1 ltac:(lia) H) as [-> ->].
    split; [done|]. rewrite C1. cbn [length]. lia.
Qed.

End AttributeTrackingTF_log.

(** ** Further concrete runs *)

(** The depth of a scatter with [timestep = 5] and [span = 15]. *)
Lemma depth_is_validated_once_witness :
  ∃ s',
    TemporalScatter.depth Examples.scatter0 = Ok (3%Z, s') ∧
    3%Z ≠ 0%Z ∧
    (TemporalScatter._depth Examples.scatter0 = None →
     TemporalScatter.span Examples.scatter0
     = (3 * TemporalScatter.timestep Examples.scatter0)%Z) ∧
    ∀ ts sp,
      TemporalScatter.depth (TemporalScatter.set_params ts sp s')
      = Ok (3%Z, TemporalScatter.set_params ts sp s').
Proof.
  eexists. split; [vm_compute; reflexivity|].
  apply (depth_is_validated_once Examples.scatter0 3).
  vm_compute; reflexivity.
Defined.

(** The depth map of four latencies, two of them outside the limits
    -7.5 and 7.5. *)
Lemma depth_map_lumps_outliers_witness :
  ∃ m s',
    TemporalScatter._compute_depth_map Examples.latencies Examples.scatter0
      (2%nat, 2%nat) = Ok (m, s') ∧
    ∃ d,
      TemporalScatter.depth
        (TemporalScatter.set_raw_depth_map
           (Some (Examples.latencies 2 2)) Examples.scatter0) = Ok (d, s') ∧
      ∀ i j k, mat_at m i j = Some k →
        ∃ v, concat (Examples.latencies 2 2) !! (i * 2 + j)%nat = Some v ∧
          (v < Examples.q (-15) 2 → k = 0%nat) ∧
          (Examples.q 15 2 ≤ v → Z.of_nat k = (d - 1)%Z) ∧
          ((2 ≤ d)%Z → k = 0%nat → v < Examples.q (-15) 2).
Proof.
  eexists _, _. split; [vm_compute; reflexivity|].
  eapply (depth_map_lumps_outliers Examples.latencies Examples.scatter0 2 2 _ _
           (Examples.q (-15) 2) (Examples.q 15 2)).
  - vm_compute; reflexivity.
  - vm_compute; reflexivity.
  - by_evaluation.
Defined.

(** The units with the latencies -100 and 100 of that depth map. *)
Lemma depth_map_monotone_witness :
  ∃ m s',
    TemporalScatter._compute_depth_map Examples.latencies Examples.scatter0
      (2%nat, 2%nat) = Ok (m, s') ∧
    mat_at m 0 0 = Some 0%nat ∧ mat_at m 1 1 = Some 2%nat ∧ (0 ≤ 2)%nat.
Proof.
  eexists _, _. split; [vm_compute; reflexivity|].
  split; [vm_compute; reflexivity|]. split; [vm_compute; reflexivity|].
  eapply (depth_map_monotone Examples.latencies Examples.scatter0 2 2
           [[0%nat; 1%nat]; [2%nat; 2%nat]] _ 0 0 0 1 1 2
           (Examples.q (-100) 1) (Examples.q 100 1)).
  - vm_compute; reflexivity.
  - reflexivity.
  - reflexivity.
  - reflexivity.
  - reflexivity.
  - by_evaluation.
Defined.

(** The first call of a fresh scatter of depth 3 over a 2 by 2 sheet. *)
Lemma first_call_outputs_undelayed_witness :
  ∃ h' s' y dm,
    TemporalScatter.__call__ Examples.latencies (∅, Examples.scatter0)
      [[Examples.q 1 1; Examples.q 2 1]; [Examples.q 3 1; Examples.q 4 1]]
    = Ok (h', s', y) ∧
    TemporalScatter.first_call s' = false ∧
    TemporalScatter.depth_map s' = Some dm ∧
    ∀ i j, (i < 2)%nat → (j < 2)%nat →
      ∃ k, mat_at dm i j = Some k ∧
        mat_at y i j =
          if decide (k = 0%nat)
          then mat_at [[Examples.q 1 1; Examples.q 2 1];
                       [Examples.q 3 1; Examples.q 4 1]] i j
          else Some 0.
Proof.
  apply (first_call_outputs_undelayed Examples.latencies ∅ Examples.scatter0
           2 2 3).
  - split; [lia|]. split; [eexists; reflexivity | reflexivity].
  - reflexivity.
  - lia.
  - repeat constructor.
Defined.

(** A push, one call and a pop on a scatter that holds a buffer. *)
Lemma state_pop_restores_after_calls_witness :
  ∃ h1 s1 h2 s2 ys,
    TemporalScatter.state_push id (Examples.store1, Examples.scatter1)
    = Ok (h1, s1) ∧
    TemporalScatter.run Examples.latencies (h1, s1) [[[Examples.q 5 1]]]
    = Ok (h2, s2, ys) ∧
    ∃ h3 s3,
      TemporalScatter.state_pop id (h2, s2) = Ok (h3, s3) ∧
      TemporalScatter.buffer_of h3 s3
      = TemporalScatter.buffer_of Examples.store1 Examples.scatter1 ∧
      TemporalScatter.first_call s3
      = TemporalScatter.first_call Examples.scatter1 ∧
      TemporalScatter.current_state_stack s3
      = TemporalScatter.current_state_stack Examples.scatter1.
Proof.
  eexists _, _, _, _, _. split; [vm_compute; reflexivity|].
  split; [vm_compute; reflexivity|].
  eapply (state_pop_restores_after_calls id id Examples.latencies
            Examples.store1 Examples.scatter1 _ _ [[[Examples.q 5 1]]]).
  - intros l [= <-]. eexists. reflexivity.
  - vm_compute; reflexivity.
  - vm_compute; reflexivity.
Defined.

(** A mode that does not exist, and the mode 'discrete' before the first
    call. *)
Lemma view_depth_map_raises_witness :
  TemporalScatter.view_depth_map (λ _, Ok ()) (λ _, Ok ()) (λ _ _ _, Ok ())
    (λ _ _, Ok ()) Examples.scatter0 "histogram" = Raise IndexError ∧
  TemporalScatter.view_depth_map (λ _, Ok ()) (λ _, Ok ()) (λ _ _ _, Ok ())
    (λ _ _, Ok ()) Examples.scatter0 "discrete" = Raise TypeError.
Proof.
  split.
  - apply (view_depth_map_raises (view := unit) (image := unit)
             (λ _, Ok ()) (λ _, Ok ()) (λ _ _ _, Ok ()) (λ _ _, Ok ())
             Examples.scatter0 "histogram").
    rewrite !not_elem_of_cons. repeat split; try discriminate.
    apply not_elem_of_nil.
  - apply (view_depth_map_raises (view := unit) (image := unit)
             (λ _, Ok ()) (λ _, Ok ()) (λ _ _ _, Ok ()) (λ _ _, Ok ())
             Examples.scatter0 "discrete").
    reflexivity.
Defined.

(** The crop region around the winner [(1, 1)] of a 5 by 5 matrix. *)
Lemma crop_region_is_clipped_square_witness :
  KernelMax.in_region
    (KernelMax.crop_region Examples.kernel_defaults (Z.of_nat 5) (Z.of_nat 5)
       (Z.of_nat 1) (Z.of_nat 1)) 1 1.
Proof.
  apply (crop_region_is_clipped_square Examples.kernel_defaults 5 5 1 1); lia.
Defined.

(** KernelMax with its defaults and a kernel of sevens on a 5 by 5
    activity. *)
Lemma kernel_max_writes_kernel_witness :
  ∃ x' wr wc,
    KernelMax.__call__ Examples.sevens Examples.kernel_defaults Examples.activity
    = Ok x' ∧
    KernelMax.array_argmax Examples.activity = Ok (wr, wc) ∧
    let rows := Z.of_nat 5 in
    let wy := (rows - Z.of_nat wr - 1)%Z in
    let '(rmin, rmax, cmin, cmax) :=
      KernelMax.crop_region Examples.kernel_defaults rows (Z.of_nat 5)
        (Z.of_nat wr) (Z.of_nat wc) in
    let kernel :=
      Examples.sevens
        ((cmin, Z.max (wy - KernelMax.crop_radius Examples.kernel_defaults) 0),
         (cmax,
          Z.min (wy + KernelMax.crop_radius Examples.kernel_defaults + 1) rows))
        (Qc_of_Z 2 * KernelMax.radius Examples.kernel_defaults)
        (Qc_of_Z (Z.of_nat wc) + Q2Qc (1 # 2)) (Qc_of_Z wy + Q2Qc (1 # 2)) in
    ∀ i j, KernelMax.in_region (rmin, rmax, cmin, cmax) i j →
      is_Some (mat_at x' i j) ∧
      mat_at x' i j = mat_at kernel (i - Z.to_nat rmin) (j - Z.to_nat cmin).
Proof.
  apply (kernel_max_writes_kernel Examples.sevens Examples.kernel_defaults
           5 5 Examples.activity).
  - intros cmin ymin cmax ymax size x y. unfold Examples.sevens.
    split; [by rewrite length_replicate|].
    apply Forall_replicate. by rewrite length_replicate.
  - split; [reflexivity | repeat constructor].
  - lia.
  - lia.
Defined.

(** A checkpoint of a fresh instance, followed by two calls. *)
Lemma state_pop_undoes_calls_witness :
  ∃ results,
    HomeostaticResponse.run Examples.no_noise
      (HomeostaticResponse.state_push
         (HomeostaticResponse.init 0 (Examples.homeostatic (Examples.q 1 100) 1) true))
      [(Examples.q 2 1, Examples.one); (Examples.q 4 1, [[Examples.q 0 1]])]
    = Ok results ∧
    HomeostaticResponse.state_pop
      (HomeostaticResponse.state_push
         (HomeostaticResponse.init 0 (Examples.homeostatic (Examples.q 1 100) 1) true))
    = Ok (HomeostaticResponse.init 0 (Examples.homeostatic (Examples.q 1 100) 1) true) ∧
    ∀ n r, results !! n = Some r →
      HomeostaticResponse.state_pop r.1
      = Ok (HomeostaticResponse.init 0
              (Examples.homeostatic (Examples.q 1 100) 1) true).
Proof.
  eexists. split; [vm_compute; reflexivity|].
  apply (state_pop_undoes_calls Examples.no_noise
           (HomeostaticResponse.init 0 (Examples.homeostatic (Examples.q 1 100) 1) true)
           [(Examples.q 2 1, Examples.one); (Examples.q 4 1, [[Examples.q 0 1]])]).
  vm_compute; reflexivity.
Defined.

(** A call at time 3 on an instance whose timestamp is 1. *)
Lemma update_waits_for_timestamp_witness :
  ∃ s' y,
    HomeostaticResponse.__call__ Examples.no_noise (Examples.q 3 1)
      Examples.homeostatic1 Examples.one = Ok (s', y) ∧
    if decide (HomeostaticResponse._next_update_timestamp Examples.homeostatic1
               < Examples.q 3 1)
    then HomeostaticResponse._next_update_timestamp s'
         = HomeostaticResponse._next_update_timestamp Examples.homeostatic1
           + HomeostaticResponse.period
               (HomeostaticResponse.par Examples.homeostatic1) ∧
         HomeostaticResponse._y_avg_prev s' = HomeostaticResponse.y_avg s'
    else HomeostaticResponse.t s'
         = HomeostaticResponse.t Examples.homeostatic1 ∧
         HomeostaticResponse.y_avg s'
         = HomeostaticResponse.y_avg Examples.homeostatic1 ∧
         HomeostaticResponse._y_avg_prev s'
         = HomeostaticResponse._y_avg_prev Examples.homeostatic1 ∧
         HomeostaticResponse._next_update_timestamp s'
         = HomeostaticResponse._next_update_timestamp Examples.homeostatic1.
Proof.
  eexists _, _. split; [vm_compute; reflexivity|].
  eapply (update_waits_for_timestamp Examples.no_noise (Examples.q 3 1)
            Examples.homeostatic1 Examples.one).
  - reflexivity.
  - vm_compute; reflexivity.
Defined.


(** Two calls of a HalfRectify with threshold one half. *)
Lemma threshold_is_set_once_witness :
  ∃ results,
    HalfRectify.run Examples.quarters
      (HalfRectify.init (Examples.q 1 2) 1 false (Examples.q 1 10))
      [Examples.one; [[Examples.q 0 1]]] = Ok results ∧
    ∀ n r, results !! n = Some r →
      is_Some (HalfRectify.t r.1) ∧ HalfRectify.first_call r.1 = false ∧
      (HalfRectify.first_call
         (HalfRectify.init (Examples.q 1 2) 1 false (Examples.q 1 10)) = false →
       r.1 = HalfRectify.init (Examples.q 1 2) 1 false (Examples.q 1 10)) ∧
      ∃ r0, results !! 0%nat = Some r0 ∧ r.1 = r0.1.
Proof.
  eexists. split; [vm_compute; reflexivity|].
  apply (threshold_is_set_once Examples.quarters
           (HalfRectify.init (Examples.q 1 2) 1 false (Examples.q 1 10))
           [Examples.one; [[Examples.q 0 1]]]).
  vm_compute; reflexivity.
Defined.

(** One call of a HalfRectify with threshold one half and gain 2. *)
Lemma half_rectify_output_witness :
  ∃ s' y,
    HalfRectify.__call__ Examples.quarters
      (HalfRectify.init (Examples.q 1 2) (Examples.q 2 1) false (Examples.q 1 10))
      Examples.wide = Ok (s', y) ∧
    ∃ tm, HalfRectify.t s' = Some tm ∧
      ∀ i j v, mat_at y i j = Some v →
        ∃ e th, mat_at Examples.wide i j = Some e ∧ mat_at tm i j = Some th ∧
          (e ≤ th → v = 0) ∧
          (th < e →
           v = (e - th)
               * HalfRectify.gain
                   (HalfRectify.init (Examples.q 1 2) (Examples.q 2 1) false
                      (Examples.q 1 10))) ∧
          (0 ≤ HalfRectify.gain
                 (HalfRectify.init (Examples.q 1 2) (Examples.q 2 1) false
                    (Examples.q 1 10)) → 0 ≤ v).
Proof.
  eexists _, _. split; [vm_compute; reflexivity|].
  apply (half_rectify_output Examples.quarters
           (HalfRectify.init (Examples.q 1 2) (Examples.q 2 1) false
              (Examples.q 1 10)) Examples.wide).
  vm_compute; reflexivity.
Defined.


(** The sum of a 2 by 3 activity with an infinite entry and a generated
    pattern. *)
Lemma pattern_combine_applies_operator_witness :
  ∃ y,
    PatternCombine.__call__ Examples.tall fadd Examples.wide_unbounded = Ok y ∧
    rect 2 3 y ∧
    ∀ i j e g,
      mat_at Examples.wide_unbounded i j = Some e →
      mat_at (Examples.tall ((0, 0)%Z, (Z.of_nat 2, Z.of_nat 3))) j i = Some g →
      mat_at y i j = Some (if is_finite e then fadd e g else NaN).
Proof.
  apply (pattern_combine_applies_operator Examples.tall fadd 2 3
           Examples.wide_unbounded).
  - split; [reflexivity | repeat constructor].
  - lia.
  - lia.
  - split; [reflexivity | repeat constructor].
Defined.

(** A coordinate frame given as an object, for an object that is not a
    sheet. *)
Lemma coordframe_needs_one_source_witness :
  AttributeTrackingTF.__call__ Examples.no_eval (Examples.q 1 2)
    (AttributeTrackingTF.init (AttributeTrackingTF.VObj Examples.projection)
       ["x"%string] [(0, 0)] 1 (AttributeTrackingTF.VObj Examples.sheet) true)
    Examples.column = Raise ValueError.
Proof.
  apply (coordframe_needs_one_source Examples.no_eval (Examples.q 1 2)
           (AttributeTrackingTF.init
              (AttributeTrackingTF.VObj Examples.projection)
              ["x"%string] [(0, 0)] 1
              (AttributeTrackingTF.VObj Examples.sheet) true)
           Examples.column (AttributeTrackingTF.VObj Examples.projection)).
  - reflexivity.
  - reflexivity.
  - reflexivity.
Defined.

(** The log of a new tracker is empty. *)
Lemma tracker_log_empty step :
  AttributeTrackingTF.values_at
    (AttributeTrackingTF.values (Examples.tracker step)) "x"%string (0, 0)
  = Some [].
Proof.
  unfold AttributeTrackingTF.values_at, Examples.tracker,
    AttributeTrackingTF.init. simpl.
  rewrite lookup_insert_eq. simpl. by rewrite lookup_insert_eq.
Qed.

(** The first call of a tracker with a step of one. *)
Lemma call_appends_to_log_witness :
  ∃ s' l',
    AttributeTrackingTF.__call__ Examples.no_eval (Examples.q 1 2)
      (Examples.tracker 1) Examples.column = Ok s' ∧
    AttributeTrackingTF.values_at (AttributeTrackingTF.values s')
      "x"%string (0, 0) = Some ([] ++ l') ∧
    Forall (λ e : Qc * Qc, e.1 = Examples.q 1 2) l' ∧
    length l' = 1%nat.
Proof.
  edestruct (call_appends_to_log Examples.no_eval (Examples.q 1 2)
               (Examples.tracker 1) Examples.column)
    as (l' & Hl' & Hnow & Hlen).
  - vm_compute; reflexivity.
  - apply tracker_log_empty.
  - eexists _, l'. split; [vm_compute; reflexivity|].
    split; [exact Hl'|]. split; [exact Hnow|]. exact Hlen.
Defined.

(** Three calls of a tracker with a step of two. *)
Lemma log_grows_once_per_step_witness :
  ∃ s' l',
    AttributeTrackingTF.run Examples.no_eval (Examples.tracker 2)
      [(Examples.q 1 2, Examples.column); (Examples.q 3 2, Examples.column);
       (Examples.q 5 2, Examples.column)] = Ok s' ∧
    AttributeTrackingTF.n_step s' = 1%Z ∧
    AttributeTrackingTF.values_at (AttributeTrackingTF.values s')
      "x"%string (0, 0) = Some ([] ++ l') ∧
    length l' = 1%nat.
Proof.
  edestruct (log_grows_once_per_step Examples.no_eval (Examples.tracker 2)
               [(Examples.q 1 2, Examples.column);
                (Examples.q 3 2, Examples.column);
                (Examples.q 5 2, Examples.column)])
    as (Hn & l' & Hl' & Hlen).
  - simpl. lia.
  - simpl. lia.
  - vm_compute; reflexivity.
  - apply tracker_log_empty.
  - eexists _, l'. split; [vm_compute; reflexivity|].
    split; [exact Hn|]. split; [exact Hl'|]. exact Hlen.
Defined.

(** Two calls of a tracker with a step of zero. *)
Lemma unreachable_step_never_records_witness :
  ∃ s',
    AttributeTrackingTF.run Examples.no_eval (Examples.tracker 0)
      [(Examples.q 1 2, Examples.column); (Examples.q 3 2, Examples.column)]
    = Ok s' ∧
    AttributeTrackingTF.values s'
    = AttributeTrackingTF.values (Examples.tracker 0) ∧
    AttributeTrackingTF.n_step s'
    = (AttributeTrackingTF.n_step (Examples.tracker 0)
       + Z.of_nat
           (length [(Examples.q 1 2, Examples.column);
                    (Examples.q 3 2, Examples.column)]))%Z.
Proof.
  eexists. split; [vm_compute; reflexivity|].
  apply (unreachable_step_never_records Examples.no_eval (Examples.tracker 0)
           [(Examples.q 1 2, Examples.column);
            (Examples.q 3 2, Examples.column)]).
  - simpl. lia.
  - vm_compute; reflexivity.
Defined.
